(** * Verification of ryu/app/intent.py

    A shallow embedding of the intent application of empower-ryu
    (shortest-path tree, rule compilation, intent registry and the
    reactive learning switch) together with the properties its
    specification states about it. *)

From stdpp Require Import base list gmap strings.
From Stdlib Require Import ZArith Lia Ascii.

Local Open Scope Z_scope.

(** ** Python dictionaries

    A Python dict keeps its keys in insertion order; assigning to an
    existing key keeps the key's position.  The order is observable in
    intent.py ([min] over a dict, [for pred in preds],
    [for uuid in list(self.rules)]), so dicts are association lists with
    unique keys. *)

Module Dict.
Section Dict.
Context {K V : Type} `{EqDecision K}.

Fixpoint get (d : list (K * V)) (k : K) : option V :=
  match d with
  | [] => None
  | (k', v) :: d' => if decide (k' = k) then Some v else get d' k
  end.

Fixpoint set (d : list (K * V)) (k : K) (v : V) : list (K * V) :=
  match d with
  | [] => [(k, v)]
  | (k', v') :: d' =>
      if decide (k' = k) then (k', v) :: d' else (k', v') :: set d' k v
  end.

(** [del d[k]]: [None] stands for the KeyError of an absent key. *)
Fixpoint del (d : list (K * V)) (k : K) : option (list (K * V)) :=
  match d with
  | [] => None
  | (k', v') :: d' =>
      if decide (k' = k) then Some d'
      else match del d' k with
           | Some d'' => Some ((k', v') :: d'')
           | None => None
           end
  end.

Definition keys (d : list (K * V)) : list K := map fst d.

End Dict.
End Dict.

(** ** Exceptions and outcomes

    [Raise] carries the Python exception that aborted the call.
    [OutOfFuel] is the outcome of a run the embedding gives no meaning to:
    a loop cut short by its fuel, or the use of a rule object that is not
    in the store.  The theorems show that the fuel given to the loop of
    [dijkstra] always suffices. *)

Inductive exn := ValueError | KeyError | IndexError.

Global Instance exn_eq_dec : EqDecision exn.
Proof. solve_decision. Defined.

Inductive res (A : Type) :=
| Ok (a : A)
| Raise (e : exn)
| OutOfFuel.
Arguments Ok {A} a.
Arguments Raise {A} e.
Arguments OutOfFuel {A}.

(** ** Distances: Python ints and [float('inf')] *)

Inductive num := Fin (n : nat) | Inf.

(** [a + 1] *)
Definition num_succ (a : num) : num :=
  match a with Fin n => Fin (S n) | Inf => Inf end.

(** [a < b] *)
Definition num_ltb (a b : num) : bool :=
  match a, b with
  | Fin x, Fin y => (x <? y)%nat
  | Fin _, Inf => true
  | Inf, _ => false
  end.

Definition num_le (a b : num) : Prop :=
  match a, b with
  | Fin x, Fin y => (x <= y)%nat
  | _, Inf => True
  | Inf, Fin _ => False
  end.

(** ** dijkstra (intent.py, lines 33-66) *)

(** An element of [edges]: the dict [{'src': .., 'dst': .., 'port': ..}]. *)
Record edge := Edge { src : Z; dst : Z; port : Z }.

Global Instance edge_eq_dec : EqDecision edge.
Proof. solve_decision. Defined.

(** [prev[v]] is [None] or the list [[u, port]]. *)
Definition pred := option (Z * Z).

(** [min(available, key=available.get)]: the first key, in the order of the
    dict, whose value is least.  [available] is a dict, so the value
    [available.get(k)] is the one listed with [k]. *)
Fixpoint min_from (best : Z * num) (l : list (Z * num)) : Z :=
  match l with
  | [] => best.1
  | kv :: l' =>
      if num_ltb kv.2 best.2 then min_from kv l' else min_from best l'
  end.

Definition py_min (available : list (Z * num)) : res Z :=
  match available with
  | [] => Raise ValueError
  | kv :: l => Ok (min_from kv l)
  end.

(** [l.remove(x)]: drops the first occurrence, ValueError when there is none. *)
Fixpoint list_remove (x : Z) (l : list Z) : res (list Z) :=
  match l with
  | [] => Raise ValueError
  | y :: l' =>
      if decide (y = x) then Ok l'
      else match list_remove x l' with
           | Ok l'' => Ok (y :: l'')
           | Raise e => Raise e
           | OutOfFuel => OutOfFuel
           end
  end.

(** The body of [for v in neighbors]. *)
Definition relax (u : Z) (dp : list (Z * num) * list (Z * pred)) (v : edge)
  : res (list (Z * num) * list (Z * pred)) :=
  let '(dist, prev) := dp in
  match Dict.get dist u with
  | None => Raise KeyError
  | Some du =>
      let alt := num_succ du in
      match Dict.get dist (dst v) with
      | None => Raise KeyError
      | Some dv =>
          if num_ltb alt dv
          then Ok (Dict.set dist (dst v) alt,
                   Dict.set prev (dst v) (Some (u, port v)))
          else Ok (dist, prev)
      end
  end.

Fixpoint relax_all (u : Z) (neighbors : list edge)
    (dp : list (Z * num) * list (Z * pred))
  : res (list (Z * num) * list (Z * pred)) :=
  match neighbors with
  | [] => Ok dp
  | v :: rest =>
      match relax u dp v with
      | Ok dp' => relax_all u rest dp'
      | Raise e => Raise e
      | OutOfFuel => OutOfFuel
      end
  end.

(** [while unvisited: ...] *)
Fixpoint dijkstra_loop (fuel : nat) (edges : list edge)
    (dist : list (Z * num)) (prev : list (Z * pred)) (unvisited : list Z)
  : res (list (Z * num) * list (Z * pred)) :=
  match unvisited with
  | [] => Ok (dist, prev)
  | _ :: _ =>
      match fuel with
      | O => OutOfFuel
      | S fuel' =>
          let available := filter (λ kv, kv.1 ∈ unvisited) dist in
          match py_min available with
          | Ok u =>
              match list_remove u unvisited with
              | Ok unvisited' =>
                  let neighbors := filter (λ x, src x = u) edges in
                  match relax_all u neighbors (dist, prev) with
                  | Ok (dist', prev') =>
                      dijkstra_loop fuel' edges dist' prev' unvisited'
                  | Raise e => Raise e
                  | OutOfFuel => OutOfFuel
                  end
              | Raise e => Raise e
              | OutOfFuel => OutOfFuel
              end
          | Raise e => Raise e
          | OutOfFuel => OutOfFuel
          end
      end
  end.

(** [for vertex in vertices: dist[vertex] = inf; prev[vertex] = None;
    unvisited.append(vertex)] *)
Fixpoint dijkstra_init (vertices : list Z)
    (st : list (Z * num) * list (Z * pred) * list Z)
  : list (Z * num) * list (Z * pred) * list Z :=
  match vertices with
  | [] => st
  | vertex :: rest =>
      let '(dist, prev, unvisited) := st in
      dijkstra_init rest
        (Dict.set dist vertex Inf, Dict.set prev vertex None,
         unvisited ++ [vertex])
  end.

Definition dijkstra (vertices : list Z) (edges : list edge) (source : Z)
  : res (list (Z * num) * list (Z * pred)) :=
  if decide (source ∈ vertices) then
    let '(dist, prev, unvisited) := dijkstra_init vertices ([], [], []) in
    let dist := Dict.set dist source (Fin 0) in
    dijkstra_loop (length unvisited) edges dist prev unvisited
  else Raise ValueError.

(** ** Objects of the framework *)

(** Modelled from the spec: the framework's objects, whose classes are not
    part of intent.py.  A [Datapath] is a connected switch: its id and the
    port numbers iterated by [for in_port in datapath.ports] (the reserved
    local port 65534 among them).  A [Switch] and a [Link] are what the
    topology collaborator lists: links are directed and carry the port on
    each side. *)
Record Datapath := { id : Z; ports : list Z }.
Record Switch := { dp : Datapath }.
Record Port := { dpid : Z; port_no : Z }.
Record Link := { link_src : Port; link_dst : Port }.

Global Instance Datapath_eq_dec : EqDecision Datapath.
Proof. solve_decision. Defined.

(** Values of header fields: numbers (ports) and strings (addresses). *)
Inductive pyval := PInt (z : Z) | PStr (s : string).

Global Instance pyval_eq_dec : EqDecision pyval.
Proof. solve_decision. Defined.

(** An [OFPMatch] built from keyword arguments holds the fields it was
    given. *)
Record OFPMatch := MkOFPMatch { match_fields : list (string * pyval) }.

Inductive action := OFPActionOutput (out_port : Z).

Inductive command := OFPFC_ADD | OFPFC_DELETE | OFPFC_DELETE_STRICT.

(** [OFPFlowMod(...)]: an optional field is [None] when the call does not
    pass the keyword. *)
Record OFPFlowMod := {
  fm_datapath : Datapath;
  fm_match : OFPMatch;
  fm_cookie : Z;
  fm_command : command;
  fm_idle_timeout : option Z;
  fm_hard_timeout : option Z;
  fm_priority : option Z;
  fm_flags : option Z;
  fm_actions : option (list action)
}.

Record OFPPacketOut := {
  po_datapath : Datapath;
  po_buffer_id : Z;
  po_in_port : Z;
  po_actions : list action;
  po_data : option (list Z)
}.

Inductive message :=
| FlowMod (m : OFPFlowMod)
| PacketOut (p : OFPPacketOut).

(** Modelled from the spec: the intent object handed over by the request
    interface (its class lives in ryu.app.rest_intent): uuid, match
    predicate, target switch and port, and the compiled rule set, which is
    empty when the object is created. *)
Record IntentRule := {
  uuid : Z;
  ttp_dpid : Z;
  ttp_port : Z;
  match_ : list (string * pyval);
  flow_mods : list OFPFlowMod
}.

(** Modelled from the spec: the Ethernet header decoded by the packet
    library and the packet-in message it came with. *)
Record ethernet := { eth_dst : string; eth_src : string; ethertype : Z }.

Record PacketIn := {
  msg_datapath : Datapath;
  msg_in_port : Z;
  msg_buffer_id : Z;
  msg_data : list Z;
  msg_eth : ethernet
}.

(** Modelled from the spec: constants of the OpenFlow 1.0 and Ethernet
    definitions of the framework. *)
Definition ETH_TYPE_LLDP : Z := 0x88cc.
Definition ETH_TYPE_IPV6 : Z := 0x86dd.
Definition OFPP_FLOOD : Z := 0xfffb.
Definition OFP_NO_BUFFER : Z := 0xffffffff.
Definition OFPFF_SEND_FLOW_REM : Z := 1.

Definition OFP_LW_PRIORITY : Z := 100.
Definition OFP_RULE_PRIORITY : Z := 200.

(** ** State of the application and of its collaborators

    [heap] holds the rule objects; [rules] ([self.rules]) maps a uuid to a
    reference into it, so that a rule object mutated by [_compile_rule] is
    the one the registry refers to.  [sent] records every [send_msg], with
    the id of the datapath it was called on.  [topo_switches] and
    [topo_links] are what the topology collaborator answers. *)

Definition loc := nat.

Record State := {
  topo_switches : list Switch;
  topo_links : list Link;
  heap : gmap loc IntentRule;
  mac_to_port : gmap Z (gmap string Z);
  rules : list (Z * loc);
  sent : list (Z * message)
}.

Definition M (A : Type) : Type := State → res A * State.

Global Instance M_ret : MRet M := λ A a s, (Ok a, s).

Global Instance M_bind : MBind M := λ A B f m s,
  match m s with
  | (Ok a, s') => f a s'
  | (Raise e, s') => (Raise e, s')
  | (OutOfFuel, s') => (OutOfFuel, s')
  end.

Definition raise {A} (e : exn) : M A := λ s, (Raise e, s).

Definition lift {A} (r : res A) : M A := λ s, (r, s).

Definition gets {A} (f : State → A) : M A := λ s, (Ok (f s), s).

Definition modify (f : State → State) : M unit := λ s, (Ok (), f s).

Fixpoint for_each {A} (l : list A) (body : A → M unit) : M unit :=
  match l with
  | [] => mret ()
  | x :: l' => body x ;; for_each l' body
  end.

(** Reading and updating a rule object. *)
Definition deref (rule : loc) : M IntentRule := λ s,
  match heap s !! rule with
  | Some r => (Ok r, s)
  | None => (OutOfFuel, s)
  end.

Definition set_heap (h : gmap loc IntentRule) (s : State) : State :=
  {| topo_switches := topo_switches s; topo_links := topo_links s;
     heap := h; mac_to_port := mac_to_port s; rules := rules s;
     sent := sent s |}.

Definition set_mac_to_port (m : gmap Z (gmap string Z)) (s : State) : State :=
  {| topo_switches := topo_switches s; topo_links := topo_links s;
     heap := heap s; mac_to_port := m; rules := rules s; sent := sent s |}.

Definition set_rules (r : list (Z * loc)) (s : State) : State :=
  {| topo_switches := topo_switches s; topo_links := topo_links s;
     heap := heap s; mac_to_port := mac_to_port s; rules := r;
     sent := sent s |}.

Definition set_sent (l : list (Z * message)) (s : State) : State :=
  {| topo_switches := topo_switches s; topo_links := topo_links s;
     heap := heap s; mac_to_port := mac_to_port s; rules := rules s;
     sent := l |}.

Definition update (rule : loc) (f : IntentRule → IntentRule) : M unit :=
  r ← deref rule; modify (λ s, set_heap (<[rule := f r]> (heap s)) s).

Definition set_match (m : list (string * pyval)) (r : IntentRule) : IntentRule :=
  {| uuid := uuid r; ttp_dpid := ttp_dpid r; ttp_port := ttp_port r;
     match_ := m; flow_mods := flow_mods r |}.

Definition set_flow_mods (l : list OFPFlowMod) (r : IntentRule) : IntentRule :=
  {| uuid := uuid r; ttp_dpid := ttp_dpid r; ttp_port := ttp_port r;
     match_ := match_ r; flow_mods := l |}.

(** [datapath.send_msg(msg)] *)
Definition send_msg (datapath : Datapath) (msg : message) : M unit :=
  modify (λ s, set_sent (sent s ++ [(id datapath, msg)]) s).

(** Modelled from the spec: the topology query of ryu.topology.api.
    [get_switch(app, None)] lists every switch, [get_switch(app, dpid)] the
    switches with that id; [get_link(app, None)] lists every link. *)
Definition get_switch (dpid : option Z) : M (list Switch) :=
  gets (λ s,
    match dpid with
    | None => topo_switches s
    | Some d => filter (λ switch, id (dp switch) = d) (topo_switches s)
    end).

Definition get_link : M (list Link) := gets topo_links.

(** [l[0]] *)
Definition item0 {A} (l : list A) : M A :=
  match l with
  | x :: _ => mret x
  | [] => raise IndexError
  end.

(** ** Intent (intent.py, lines 69-270) *)

(** [_compute_spanning_tree]: the spanning tree rooted on [ttp_dpid]. *)
Definition _compute_spanning_tree (ttp_dpid : Z)
  : M (list (Z * num) * list (Z * pred)) :=
  sws_list ← get_switch None;
  let sws := map (λ switch, id (dp switch)) sws_list in
  links_list ← get_link;
  let links :=
    map (λ link, {| src := dpid (link_src link);
                    dst := dpid (link_dst link);
                    port := port_no (link_dst link) |}) links_list in
  lift (dijkstra sws links ttp_dpid).

(** The flow mod built at lines 127-134 for [in_port], from the match dict
    of the rule once [in_port] has been stored in it. *)
Definition compiled_mod (datapath : Datapath) (m : list (string * pyval))
    (actions : list action) : OFPFlowMod :=
  {| fm_datapath := datapath; fm_match := MkOFPMatch m; fm_cookie := 0;
     fm_command := OFPFC_ADD; fm_idle_timeout := None;
     fm_hard_timeout := None; fm_priority := Some 200; fm_flags := None;
     fm_actions := Some actions |}.

(** The body of [for in_port in datapath.ports]. *)
Definition compile_port (rule : loc) (datapath : Datapath) (port : Z)
    (actions : list action) (in_port : Z) : M unit :=
  if decide (in_port = port) then mret ()
  else if decide (in_port = 65534) then mret ()
  else
    update rule (λ r, set_match (Dict.set (match_ r) "in_port" (PInt in_port)) r);;
    r ← deref rule;
    let match' := match_ r in
    m ← (match Dict.del (match_ r) "in_port" with
         | Some m => mret m
         | None => raise KeyError
         end);
    update rule (set_match m);;
    let mod' := compiled_mod datapath match' actions in
    update rule (λ r, set_flow_mods (flow_mods r ++ [mod']) r).

(** The body of [for pred in preds]. *)
Definition compile_pred (rule : loc) (preds : list (Z * pred)) (pred : Z)
  : M unit :=
  p ← (match Dict.get preds pred with
       | Some p => mret p
       | None => raise KeyError
       end);
  '(datapath, port) ←
    (match p with
     | None =>
         r ← deref rule;
         sw ← get_switch (Some (ttp_dpid r));
         switch ← item0 sw;
         r ← deref rule;
         mret (dp switch, ttp_port r)
     | Some (_, port) =>
         sw ← get_switch (Some pred);
         switch ← item0 sw;
         mret (dp switch, port)
     end);
  let actions := [OFPActionOutput port] in
  for_each (ports datapath) (compile_port rule datapath port actions).

Definition _compile_rule (rule : loc) : M unit :=
  r ← deref rule;
  '(_, preds) ← _compute_spanning_tree (ttp_dpid r);
  for_each (Dict.keys preds) (compile_pred rule preds).

Definition add_rule (rule : loc) : M unit :=
  _compile_rule rule;;
  r ← deref rule;
  for_each (flow_mods r)
    (λ flow_mod, send_msg (fm_datapath flow_mod) (FlowMod flow_mod));;
  r ← deref rule;
  modify (λ s, set_rules (Dict.set (rules s) (uuid r) rule) s).

(** The delete built at lines 178-181 for an installed [mod]. *)
Definition delete_mod (mod' : OFPFlowMod) : OFPFlowMod :=
  {| fm_datapath := fm_datapath mod'; fm_match := fm_match mod';
     fm_cookie := 0; fm_command := OFPFC_DELETE_STRICT;
     fm_idle_timeout := None; fm_hard_timeout := None;
     fm_priority := Some OFP_RULE_PRIORITY; fm_flags := None;
     fm_actions := None |}.

Definition _remove_reverse_path (uuid : Z) : M unit :=
  rs ← gets rules;
  match Dict.get rs uuid with
  | None => raise KeyError
  | Some rule =>
      r ← deref rule;
      for_each (flow_mods r)
        (λ mod', send_msg (fm_datapath mod') (FlowMod (delete_mod mod')))
  end.

(** [del self.rules[uuid]] *)
Definition del_rules (uuid : Z) : M unit :=
  rs ← gets rules;
  match Dict.del rs uuid with
  | Some rs' => modify (set_rules rs')
  | None => raise KeyError
  end.

(** [uuid] is [None] (the default of the parameter) or a uuid object; a
    uuid object is true in [if uuid:], whatever its value. *)
Definition remove_rule (uuid : option Z) : M unit :=
  match uuid with
  | Some uuid => _remove_reverse_path uuid;; del_rules uuid
  | None =>
      rs ← gets rules;
      for_each (Dict.keys rs)
        (λ uuid, _remove_reverse_path uuid;; del_rules uuid)
  end.

Definition update_rule (uuid : option Z) (rule : loc) : M unit :=
  remove_rule uuid;; add_rule rule.

Definition _add_flow (datapath : Datapath) (in_port : Z) (dst : string)
    (actions : list action) : M unit :=
  let match' :=
    MkOFPMatch [("in_port"%string, PInt in_port); ("dl_dst"%string, PStr dst)] in
  let mod' :=
    {| fm_datapath := datapath; fm_match := match'; fm_cookie := 0;
       fm_command := OFPFC_ADD; fm_idle_timeout := Some 0;
       fm_hard_timeout := Some 0; fm_priority := Some OFP_LW_PRIORITY;
       fm_flags := Some OFPFF_SEND_FLOW_REM; fm_actions := Some actions |} in
  send_msg datapath (FlowMod mod').

(** [int(s, 16)].  The packet library writes an address as six groups of
    two hexadecimal digits joined by ':'; on such a group, and on every
    non-empty string of hexadecimal digits, [int16] is Python's [int].
    The signs, prefixes, blanks and underscores that [int] also reads do
    not occur in a decoded address and are answered by ValueError here, as
    is the empty string. *)
Definition hex_digit (c : ascii) : option Z :=
  let n := Z.of_N (Ascii.N_of_ascii c) in
  if (48 <=? n) && (n <=? 57) then Some (n - 48)
  else if (97 <=? n) && (n <=? 102) then Some (n - 87)
  else if (65 <=? n) && (n <=? 70) then Some (n - 55)
  else None.

Fixpoint int16_from (acc : Z) (s : string) : res Z :=
  match s with
  | EmptyString => Ok acc
  | String c s' =>
      match hex_digit c with
      | Some d => int16_from (16 * acc + d) s'
      | None => Raise ValueError
      end
  end.

Definition int16 (s : string) : res Z :=
  match s with
  | EmptyString => Raise ValueError
  | _ => int16_from 0 s
  end.

(** [s.split(':')[0]] *)
Fixpoint split0 (s : string) : string :=
  match s with
  | EmptyString => EmptyString
  | String c s' =>
      if Ascii.eqb c ":"%char then EmptyString else String c (split0 s')
  end.

(** The learning switch.  The calls to the logger leave the state and the
    switches alone and are left out. *)
Definition _packet_in_handler (ev : PacketIn) : M unit :=
  let datapath := msg_datapath ev in
  let eth := msg_eth ev in
  if decide (ethertype eth = ETH_TYPE_LLDP) then mret ()
  else if decide (ethertype eth = ETH_TYPE_IPV6) then mret ()
  else
    let dst := eth_dst eth in
    let src := eth_src eth in
    octet ← lift (int16 (split0 dst));
    if decide (Z.land octet 1 ≠ 0) then mret ()
    else
      let dpid := id datapath in
      modify (λ s,
        match mac_to_port s !! dpid with
        | Some _ => s
        | None => set_mac_to_port (<[dpid := ∅]> (mac_to_port s)) s
        end);;
      table ← gets (λ s, default ∅ (mac_to_port s !! dpid));
      modify (λ s,
        set_mac_to_port
          (<[dpid := <[src := msg_in_port ev]> table]> (mac_to_port s)) s);;
      table ← gets (λ s, default ∅ (mac_to_port s !! dpid));
      let out_port :=
        match table !! dst with
        | Some p => p
        | None => OFPP_FLOOD
        end in
      let actions := [OFPActionOutput out_port] in
      (if decide (out_port ≠ OFPP_FLOOD)
       then _add_flow datapath (msg_in_port ev) dst actions
       else mret ());;
      let data :=
        if decide (msg_buffer_id ev = OFP_NO_BUFFER)
        then Some (msg_data ev) else None in
      send_msg datapath
        (PacketOut {| po_datapath := datapath;
                      po_buffer_id := msg_buffer_id ev;
                      po_in_port := msg_in_port ev;
                      po_actions := actions; po_data := data |}).

(** The reset sent when a switch joins: a delete that matches everything. *)
Definition _switch_enter_handler (datapath : Datapath) : M unit :=
  let match' := MkOFPMatch [] in
  let mod' :=
    {| fm_datapath := datapath; fm_match := match'; fm_cookie := 0;
       fm_command := OFPFC_DELETE; fm_idle_timeout := None;
       fm_hard_timeout := None; fm_priority := None; fm_flags := None;
       fm_actions := Some [] |} in
  send_msg datapath (FlowMod mod').

(** * Notions used by the statements *)

(** ** Paths of the topology graph *)

(** [walk edges u p v]: the links [p], taken in order, lead from [u] to
    [v]. *)
Fixpoint walk (edges : list edge) (u : Z) (p : list edge) (v : Z) : Prop :=
  match p with
  | [] => u = v
  | e :: p' => e ∈ edges ∧ src e = u ∧ walk edges (dst e) p' v
  end.

(** The switches a walk from [u] goes through, [u] first. *)
Definition walk_vertices (u : Z) (p : list edge) : list Z := u :: map dst p.

(** A simple path from [u]: a walk that visits no switch twice. *)
Definition simple_path (edges : list edge) (u : Z) (p : list edge) : Prop :=
  (∃ v, walk edges u p v) ∧ NoDup (walk_vertices u p).

(** [d] is the least number of links of a walk from [source] to [v], or
    the unreachable sentinel when there is none. *)
Definition hop_distance (edges : list edge) (source v : Z) (d : num) : Prop :=
  match d with
  | Fin n =>
      (∃ p, walk edges source p v ∧ length p = n) ∧
      (∀ p, walk edges source p v → (n ≤ length p)%nat)
  | Inf => ∀ p, ¬ walk edges source p v
  end.

(** Every link that leaves a switch of the snapshot arrives at a switch of
    the snapshot. *)
Definition links_closed (vertices : list Z) (edges : list edge) : Prop :=
  ∀ e, e ∈ edges → src e ∈ vertices → dst e ∈ vertices.

Definition shortest_distances (vertices : list Z) (edges : list edge)
    (source : Z) (dist : list (Z * num)) : Prop :=
  Dict.get dist source = Some (Fin 0) ∧
  ∀ v, v ∈ vertices →
       ∃ d, Dict.get dist v = Some d ∧ hop_distance edges source v d.

(** The distances do not decrease from one switch of the walk to the
    next. *)
Definition nondecreasing_along (dist : list (Z * num)) (u : Z)
    (p : list edge) : Prop :=
  ∀ (i : nat) a b da db,
    walk_vertices u p !! i = Some a →
    walk_vertices u p !! S i = Some b →
    Dict.get dist a = Some da → Dict.get dist b = Some db →
    num_le da db.

Definition monotone_on_simple_paths (edges : list edge) (source : Z)
    (dist : list (Z * num)) : Prop :=
  ∀ p, simple_path edges source p → nondecreasing_along dist source p.

(** Along a link the distance grows by one at most. *)
Definition one_hop_per_link (vertices : list Z) (edges : list edge)
    (dist : list (Z * num)) : Prop :=
  ∀ e, e ∈ edges → src e ∈ vertices →
       ∃ du dv, Dict.get dist (src e) = Some du ∧
                Dict.get dist (dst e) = Some dv ∧
                num_le dv (num_succ du).

(** Along a shortest walk the distance of the [i]-th switch is [i]. *)
Definition counts_hops_on_shortest_walks (edges : list edge) (source : Z)
    (dist : list (Z * num)) : Prop :=
  ∀ p v, walk edges source p v →
         Dict.get dist v = Some (Fin (length p)) →
         ∀ (i : nat) w, walk_vertices source p !! i = Some w →
                        Dict.get dist w = Some (Fin i).

(** ** Invariant of the loop of dijkstra *)

(** [x] is settled: no unvisited switch is nearer, and every link out of
    [x] has been relaxed. *)
Definition settled (edges : list edge) (dist : list (Z * num))
    (unvisited : list Z) (x : Z) : Prop :=
  ∃ dx, Dict.get dist x = Some dx ∧
        (∀ w dw, w ∈ unvisited → Dict.get dist w = Some dw → num_le dx dw) ∧
        (∀ e, e ∈ edges → src e = x →
              ∃ dv, Dict.get dist (dst e) = Some dv ∧
                    num_le dv (num_succ dx)).

(** What the relaxation of the links out of [u] does to [dist]. *)
Definition lowered (u : Z) (du : num) (neighbors : list edge)
    (dist dist' : list (Z * num)) : Prop :=
  ∀ x dx, Dict.get dist x = Some dx →
          Dict.get dist' x = Some dx ∨
          (Dict.get dist' x = Some (num_succ du) ∧
           num_ltb (num_succ du) dx = true ∧
           ∃ e, e ∈ neighbors ∧ dst e = x).

Record dijkstra_inv (vertices : list Z) (edges : list edge) (source : Z)
    (dist : list (Z * num)) (prev : list (Z * pred)) (unvisited : list Z)
  : Prop := {
  inv_nodup : NoDup (Dict.keys dist);
  inv_keys : ∀ v, v ∈ Dict.keys dist ↔ v ∈ vertices;
  inv_prev : Dict.keys prev = Dict.keys dist;
  inv_source : Dict.get dist source = Some (Fin 0);
  inv_sound : ∀ v n, Dict.get dist v = Some (Fin n) →
                     ∃ p, walk edges source p v ∧ length p = n;
  inv_unvisited : ∀ w, w ∈ unvisited → w ∈ vertices;
  inv_settled : ∀ x, x ∈ vertices →
                     x ∈ unvisited ∨ settled edges dist unvisited x
}.

(** ** Snapshots, rules and messages *)

(** The switch list and the link list handed to dijkstra by
    [_compute_spanning_tree]. *)
Definition snapshot_switches (s : State) : list Z :=
  map (λ switch, id (dp switch)) (topo_switches s).

Definition snapshot_links (s : State) : list edge :=
  map (λ link, {| src := dpid (link_src link);
                  dst := dpid (link_dst link);
                  port := port_no (link_dst link) |}) (topo_links s).

(** The state in which the rule object at [rule] is [r]. *)
Definition store_rule (rule : loc) (r : IntentRule) (s : State) : State :=
  set_heap (<[rule := r]> (heap s)) s.

(** Two states that differ at most in the rule object at [rule]. *)
Definition same_but_rule (rule : loc) (s s' : State) : Prop :=
  topo_switches s' = topo_switches s ∧ topo_links s' = topo_links s ∧
  mac_to_port s' = mac_to_port s ∧ rules s' = rules s ∧ sent s' = sent s ∧
  ∀ l, l ≠ rule → heap s' !! l = heap s !! l.

(** A compiled rule: an install of priority 200 that forwards to one port
    the frames entering by another port, which is not the reserved port
    65534. *)
Definition compiled_ok (m : OFPFlowMod) : Prop :=
  ∃ in_port out_port,
    Dict.get (match_fields (fm_match m)) "in_port" = Some (PInt in_port) ∧
    fm_actions m = Some [OFPActionOutput out_port] ∧
    in_port ≠ out_port ∧ in_port ≠ 65534 ∧
    fm_command m = OFPFC_ADD ∧ fm_priority m = Some 200.

(** [r'] is [r] after a compilation that emitted [new]. *)
Definition compiled_from (r r' : IntentRule) (new : list OFPFlowMod) : Prop :=
  uuid r' = uuid r ∧ ttp_dpid r' = ttp_dpid r ∧ ttp_port r' = ttp_port r ∧
  flow_mods r' = flow_mods r ++ new ∧
  ("in_port" ∉ Dict.keys (match_ r) → match_ r' = match_ r) ∧
  Forall compiled_ok new.

(** The install sent for a compiled rule and the delete sent for it. *)
Definition install_of (m : OFPFlowMod) : Z * message :=
  (id (fm_datapath m), FlowMod m).

Definition delete_of (m : OFPFlowMod) : Z * message :=
  (id (fm_datapath m), FlowMod (delete_mod m)).

(** [d] is a strict delete for the install [i]: same switch, same match,
    same priority. *)
Definition matching_delete (i d : Z * message) : Prop :=
  match i, d with
  | (si, FlowMod mi), (sd, FlowMod md) =>
      si = sd ∧ fm_datapath md = fm_datapath mi ∧
      fm_command mi = OFPFC_ADD ∧ fm_command md = OFPFC_DELETE_STRICT ∧
      fm_match md = fm_match mi ∧ fm_priority md = fm_priority mi
  | _, _ => False
  end.


(** ** Frames *)

(** The frames the learning switch drops on entry. *)
Definition dropped (ev : PacketIn) : Prop :=
  ethertype (msg_eth ev) = ETH_TYPE_LLDP ∨
  ethertype (msg_eth ev) = ETH_TYPE_IPV6 ∨
  ∃ octet, int16 (split0 (eth_dst (msg_eth ev))) = Ok octet ∧
           Z.land octet 1 ≠ 0.

(** The frames it goes on with: a unicast destination, neither LLDP nor
    IPv6. *)
Definition handled (ev : PacketIn) : Prop :=
  ethertype (msg_eth ev) ≠ ETH_TYPE_LLDP ∧
  ethertype (msg_eth ev) ≠ ETH_TYPE_IPV6 ∧
  ∃ octet, int16 (split0 (eth_dst (msg_eth ev))) = Ok octet ∧
           Z.land octet 1 = 0.

(** [MacTable[switch][sourceMAC] = ingressPort] *)
Definition learned (ev : PacketIn) (s : State) : Prop :=
  ∃ table, mac_to_port s !! id (msg_datapath ev) = Some table ∧
           table !! eth_src (msg_eth ev) = Some (msg_in_port ev).

(** ** Example snapshots *)

(** Switch 1 with ports 1, 2 and the reserved port; switch 2 with ports
    1, 2, 3. *)
Definition switch1 : Switch := {| dp := {| id := 1; ports := [1; 2; 65534] |} |}.
Definition switch2 : Switch := {| dp := {| id := 2; ports := [1; 2; 3] |} |}.

(** Port 2 of switch 1 is wired to port 1 of switch 2, both ways. *)
Definition link12 : Link :=
  {| link_src := {| dpid := 1; port_no := 2 |};
     link_dst := {| dpid := 2; port_no := 1 |} |}.
Definition link21 : Link :=
  {| link_src := {| dpid := 2; port_no := 1 |};
     link_dst := {| dpid := 1; port_no := 2 |} |}.

(** An intent towards port 1 of switch [target]. *)
Definition intent_to (target : Z) : IntentRule :=
  {| uuid := 77; ttp_dpid := target; ttp_port := 1;
     match_ := [("dl_dst"%string, PStr "00:00:00:00:00:0a")];
     flow_mods := [] |}.

Definition snapshot (switches : list Switch) (links : list Link)
    (intent : IntentRule) : State :=
  {| topo_switches := switches; topo_links := links;
     heap := {[ 0%nat := intent ]}; mac_to_port := ∅; rules := [];
     sent := [] |}.

(** A registry that holds, under uuid 77, an intent towards switch 2 whose
    rule for switch 1 has been installed, while a new intent with the same
    uuid, towards switch 1, has been created and not yet added. *)
Definition old_rule : OFPFlowMod :=
  compiled_mod {| id := 1; ports := [1; 2; 65534] |}
    [("dl_dst"%string, PStr "00:00:00:00:00:0a"); ("in_port"%string, PInt 1)]
    [OFPActionOutput 2].

Definition registry_with_old_intent : State :=
  {| topo_switches := [switch1; switch2]; topo_links := [link12; link21];
     heap := {[ 0%nat := intent_to 1;
                1%nat := set_flow_mods [old_rule] (intent_to 2) ]};
     mac_to_port := ∅; rules := [(77, 1%nat)];
     sent := [install_of old_rule] |}.

(** The rule of switch 1 that forwards to port 1 what enters by port 2. *)
Definition rule_1_2 : OFPFlowMod :=
  compiled_mod {| id := 1; ports := [1; 2; 65534] |}
    [("dl_dst"%string, PStr "00:00:00:00:00:0a"); ("in_port"%string, PInt 2)]
    [OFPActionOutput 1].

(** A frame received by switch 1 on port 3. *)
Definition frame (type : Z) (dst : string) : PacketIn :=
  {| msg_datapath := {| id := 1; ports := [1; 2; 3; 65534] |};
     msg_in_port := 3; msg_buffer_id := OFP_NO_BUFFER; msg_data := [];
     msg_eth := {| eth_dst := dst; eth_src := "00:00:00:00:00:0a";
                   ethertype := type |} |}.

(** ** The forwarding tables of the switches *)

(** Modelled from the spec: the switch side of the SwitchGateway, which is
    no part of intent.py.  The table of a switch holds the entries that
    the installs put there; as in OpenFlow 1.0, an install replaces the
    entry of the same switch with the same match and priority, a strict
    delete removes that entry, a delete removes every entry that its match
    covers, and a packet-out changes nothing.  Two matches are the same
    when they give every field the same value; a flow mod without a
    priority has the default one. *)
Record flow_entry := {
  fe_switch : Z;
  fe_match : OFPMatch;
  fe_priority : Z;
  fe_actions : list action
}.

Definition OFP_DEFAULT_PRIORITY : Z := 0x8000.

Definition entry_of (switch : Z) (m : OFPFlowMod) : flow_entry :=
  {| fe_switch := switch; fe_match := fm_match m;
     fe_priority := default OFP_DEFAULT_PRIORITY (fm_priority m);
     fe_actions := default [] (fm_actions m) |}.

Definition match_eqb (a b : OFPMatch) : bool :=
  forallb (λ k, bool_decide (Dict.get (match_fields a) k
                             = Dict.get (match_fields b) k))
    (Dict.keys (match_fields a) ++ Dict.keys (match_fields b)).

(** Same switch, same match, same priority. *)
Definition same_entry (a b : flow_entry) : bool :=
  bool_decide (fe_switch a = fe_switch b) &&
  match_eqb (fe_match a) (fe_match b) &&
  bool_decide (fe_priority a = fe_priority b).

(** The entry [e] is covered by the delete [d]: same switch, and every
    field that [d] names has the same value in [e]. *)
Definition covered (d e : flow_entry) : bool :=
  bool_decide (fe_switch d = fe_switch e) &&
  forallb (λ kv, bool_decide (Dict.get (match_fields (fe_match e)) kv.1
                              = Some kv.2))
    (match_fields (fe_match d)).

Definition apply_message (table : list flow_entry) (x : Z * message)
  : list flow_entry :=
  match x with
  | (switch, FlowMod m) =>
      let e := entry_of switch m in
      match fm_command m with
      | OFPFC_ADD => List.filter (λ e', negb (same_entry e' e)) table ++ [e]
      | OFPFC_DELETE_STRICT => List.filter (λ e', negb (same_entry e' e)) table
      | OFPFC_DELETE => List.filter (λ e', negb (covered e e')) table
      end
  | (_, PacketOut _) => table
  end.

(** The tables after the messages of [log], from empty tables. *)
Definition flow_table (log : list (Z * message)) : list flow_entry :=
  fold_left apply_message log [].

(** ** More example states *)

(** A second intent with the match and the target of [intent_to 1], under
    another uuid, and a snapshot in which both have been created. *)
Definition intent_twin : IntentRule :=
  {| uuid := 79; ttp_dpid := 1; ttp_port := 1;
     match_ := [("dl_dst"%string, PStr "00:00:00:00:00:0a")];
     flow_mods := [] |}.

Definition two_twins : State :=
  {| topo_switches := [switch1; switch2]; topo_links := [link12; link21];
     heap := {[ 0%nat := intent_to 1; 1%nat := intent_twin ]};
     mac_to_port := ∅; rules := []; sent := [] |}.


(** ** Tactics *)

(** Order of distances by cases. *)
Ltac num_solve :=
  repeat match goal with
         | x : num |- _ => destruct x
         end;
  simpl in *;
  repeat match goal with
         | H : (_ <? _)%nat = true |- _ => apply Nat.ltb_lt in H
         | H : (_ <? _)%nat = false |- _ => apply Nat.ltb_ge in H
         | |- (_ <? _)%nat = true => apply Nat.ltb_lt
         | |- (_ <? _)%nat = false => apply Nat.ltb_ge
         end;
  try congruence; try lia; auto.

(** Membership in a list given in full, and closedness of a link list
    given in full. *)
Ltac elem_of_list :=
  repeat first [apply list_elem_of_here | apply list_elem_of_further].

Ltac links_closed_tac :=
  let e := fresh "e" in
  let He := fresh "He" in
  intros e He _;
  repeat (apply elem_of_cons in He as [->|He]; [simpl; elem_of_list|]);
  inversion He.

(** ** The predecessor map *)

(** A link of the snapshot leaves it. *)
Definition dangling_link (vertices : list Z) (edges : list edge) : Prop :=
  ∃ e, e ∈ edges ∧ src e ∈ vertices ∧ dst e ∉ vertices.

(** What one pass over the links out of [u] does to [dist] and [prev]
    together: an entry is left alone, or its distance drops to
    [dist[u] + 1] and its predecessor becomes [u] with the port of the
    link. *)
Definition relaxed_to (u : Z) (du : num) (neighbors : list edge)
    (dist : list (Z * num)) (prev : list (Z * pred))
    (dist' : list (Z * num)) (prev' : list (Z * pred)) : Prop :=
  ∀ x,
    (Dict.get dist' x = Dict.get dist x ∧ Dict.get prev' x = Dict.get prev x) ∨
    (∃ e dx, e ∈ neighbors ∧ dst e = x ∧ Dict.get dist x = Some dx ∧
             num_ltb (num_succ du) dx = true ∧
             Dict.get dist' x = Some (num_succ du) ∧
             Dict.get prev' x = Some (Some (u, port e))).

(** [prev[v] = [u, port]] names a link from [u] to [v] with that port, and
    [v] is one hop farther than [u]. *)
Definition tree_edge (edges : list edge) (dist : list (Z * num))
    (v u p : Z) : Prop :=
  ∃ e m, e ∈ edges ∧ src e = u ∧ dst e = v ∧ port e = p ∧
         Dict.get dist u = Some (Fin m) ∧ Dict.get dist v = Some (Fin (S m)).

Record prev_inv (edges : list edge) (source : Z) (dist : list (Z * num))
    (prev : list (Z * pred)) (unvisited : list Z) : Prop := {
  prev_source : Dict.get prev source = Some None;
  prev_unreachable :
    ∀ v, Dict.get dist v = Some Inf → Dict.get prev v = Some None;
  prev_none :
    ∀ v, Dict.get prev v = Some None →
         v = source ∨ Dict.get dist v = Some Inf;
  prev_some :
    ∀ v u p, Dict.get prev v = Some (Some (u, p)) →
             tree_edge edges dist v u p ∧
             ∀ w dw, w ∈ unvisited → Dict.get dist w = Some dw →
                     ∃ m, Dict.get dist u = Some (Fin m) ∧ num_le (Fin m) dw
}.

(** ** What a compilation emits *)

(** A rule emitted for the intent [r] on the snapshot of [s]: it is
    addressed to a switch of the snapshot, its match forces the ingress
    port to a port of that switch and agrees with the match of the intent
    on every other field. *)
Definition rule_for (s : State) (r : IntentRule) (m : OFPFlowMod) : Prop :=
  (∃ switch in_port,
     switch ∈ topo_switches s ∧ fm_datapath m = dp switch ∧
     in_port ∈ ports (dp switch) ∧
     Dict.get (match_fields (fm_match m)) "in_port" = Some (PInt in_port)) ∧
  ∀ k, k ≠ "in_port"%string →
       Dict.get (match_fields (fm_match m)) k = Dict.get (match_ r) k.

(** [r'] is [r] after a compilation on the snapshot of [s] that emitted
    [new]. *)
Definition compile_trace (s : State) (r r' : IntentRule)
    (new : list OFPFlowMod) : Prop :=
  ttp_dpid r' = ttp_dpid r ∧ ttp_port r' = ttp_port r ∧
  flow_mods r' = flow_mods r ++ new ∧
  (∀ k, k ≠ "in_port"%string →
        Dict.get (match_ r') k = Dict.get (match_ r) k) ∧
  Forall (rule_for s r) new ∧
  (new = [] → match_ r' = match_ r) ∧
  (NoDup (Dict.keys (match_ r)) →
   NoDup (Dict.keys (match_ r')) ∧
   (new ≠ [] → "in_port" ∉ Dict.keys (match_ r'))).

(** ** What the removal of every intent sends *)

(** The deletes of the rule sets of the registry entries [rs], entry after
    entry. *)
Definition registry_deletes (h : gmap loc IntentRule) (rs : list (Z * loc))
  : list (Z * message) :=
  concat (map (λ entry, match h !! entry.2 with
                        | Some r => map delete_of (flow_mods r)
                        | None => []
                        end) rs).

(** ** What the learning switch sends *)

(** The table of the switch of the frame once the source of the frame has
    been learned, and the port the destination resolves to in it. *)
Definition table_after (ev : PacketIn) (s : State) : gmap string Z :=
  <[eth_src (msg_eth ev) := msg_in_port ev]>
    (default ∅ (mac_to_port s !! id (msg_datapath ev))).

Definition resolved_port (ev : PacketIn) (s : State) : Z :=
  match table_after ev s !! eth_dst (msg_eth ev) with
  | Some p => p
  | None => OFPP_FLOOD
  end.

(** The install and the packet-out sent for a frame and an output port. *)
Definition learned_flow (ev : PacketIn) (out_port : Z) : Z * message :=
  (id (msg_datapath ev),
   FlowMod
     {| fm_datapath := msg_datapath ev;
        fm_match :=
          MkOFPMatch [("in_port"%string, PInt (msg_in_port ev));
                      ("dl_dst"%string, PStr (eth_dst (msg_eth ev)))];
        fm_cookie := 0; fm_command := OFPFC_ADD;
        fm_idle_timeout := Some 0; fm_hard_timeout := Some 0;
        fm_priority := Some OFP_LW_PRIORITY;
        fm_flags := Some OFPFF_SEND_FLOW_REM;
        fm_actions := Some [OFPActionOutput out_port] |}).

Definition packet_out (ev : PacketIn) (out_port : Z) : Z * message :=
  (id (msg_datapath ev),
   PacketOut
     {| po_datapath := msg_datapath ev; po_buffer_id := msg_buffer_id ev;
        po_in_port := msg_in_port ev;
        po_actions := [OFPActionOutput out_port];
        po_data := if decide (msg_buffer_id ev = OFP_NO_BUFFER)
                   then Some (msg_data ev) else None |}).

(** An entry of the MAC tables: switch, address, port. *)
Definition mac_entry (s : State) (switch : Z) (mac : string) : option Z :=
  mac_to_port s !! switch ≫= λ table, table !! mac.

(** ** More example states *)

(** An intent towards port 1 of switch 1 whose match names ingress port
    9. *)
Definition intent_with_in_port : IntentRule :=
  {| uuid := 78; ttp_dpid := 1; ttp_port := 1;
     match_ := [("in_port"%string, PInt 9);
                ("dl_dst"%string, PStr "00:00:00:00:00:0a")];
     flow_mods := [] |}.

(** A registry with two stored intents, the rule objects 1 and 2. *)
Definition registry_of_two : State :=
  {| topo_switches := [switch1; switch2]; topo_links := [link12; link21];
     heap := {[ 0%nat := intent_to 9;
                1%nat := set_flow_mods [old_rule] (intent_to 2);
                2%nat := set_flow_mods [rule_1_2] intent_with_in_port ]};
     mac_to_port := ∅; rules := [(77, 1%nat); (78, 2%nat)];
     sent := [] |}.

(** A frame from 00:00:00:00:00:0b to 00:00:00:00:00:0a received by switch
    1 on port 2. *)
Definition reply_frame : PacketIn :=
  {| msg_datapath := {| id := 1; ports := [1; 2; 3; 65534] |};
     msg_in_port := 2; msg_buffer_id := 7; msg_data := [];
     msg_eth := {| eth_dst := "00:00:00:00:00:0a";
                   eth_src := "00:00:00:00:00:0b";
                   ethertype := 0x0800 |} |}.

(** Switch 1 has learned 00:00:00:00:00:0a on port 3. *)
Definition table_known : State :=
  {| topo_switches := [switch1]; topo_links := [];
     heap := ∅;
     mac_to_port := {[ 1 := {[ "00:00:00:00:00:0a"%string := 3 ]} ]};
     rules := []; sent := [] |}.

(** * Facts about the model *)

(** ** Dictionaries *)

Module DictFacts.
Import Dict.
Section DictFacts.
Context {K V : Type} `{EqDecision K}.
Implicit Types (d : list (K * V)) (k : K) (v : V).

Lemma get_set_eq d k v : get (set d k v) k = Some v.
Proof.
  induction d as [|[k' v'] d IH]; simpl.
  - rewrite decide_True; auto.
  - destruct (decide (k' = k)) as [->|Hne]; simpl.
    + rewrite decide_True; auto.
    + rewrite decide_False; auto.
Qed.

Lemma get_set_ne d k k' v : k ≠ k' → get (set d k v) k' = get d k'.
Proof.
  intros Hne. induction d as [|[k0 v0] d IH]; simpl.
  - rewrite decide_False; auto.
  - destruct (decide (k0 = k)) as [->|Hne0]; simpl.
    + rewrite !decide_False; auto.
    + destruct (decide (k0 = k')); auto.
Qed.

Lemma get_set d k k' v :
  get (set d k v) k' = if decide (k = k') then Some v else get d k'.
Proof.
  destruct (decide (k = k')) as [->|Hne].
  - apply get_set_eq.
  - apply get_set_ne; auto.
Qed.

Lemma get_Some_keys d k v : get d k = Some v → k ∈ keys d.
Proof.
  induction d as [|[k' v'] d IH]; simpl; [discriminate|].
  destruct (decide (k' = k)) as [->|Hne]; intros H.
  - left.
  - right. auto.
Qed.

Lemma keys_get_Some d k : k ∈ keys d → ∃ v, get d k = Some v.
Proof.
  induction d as [|[k' v'] d IH]; simpl.
  - intros H. inversion H.
  - intros H. destruct (decide (k' = k)) as [->|Hne]; eauto.
    apply elem_of_cons in H as [->|H]; [congruence|auto].
Qed.

Lemma get_None_keys d k : get d k = None ↔ k ∉ keys d.
Proof.
  split.
  - intros Hn Hin. apply keys_get_Some in Hin as [v Hv]. congruence.
  - intros Hn. destruct (get d k) eqn:E; auto.
    apply get_Some_keys in E. contradiction.
Qed.

Lemma keys_set_in d k v : k ∈ keys d → keys (set d k v) = keys d.
Proof.
  induction d as [|[k' v'] d IH]; simpl.
  - intros H. inversion H.
  - intros H. destruct (decide (k' = k)) as [->|Hne]; simpl; auto.
    f_equal. apply IH. apply elem_of_cons in H as [->|H]; [congruence|auto].
Qed.

Lemma keys_set_notin d k v : k ∉ keys d → keys (set d k v) = keys d ++ [k].
Proof.
  induction d as [|[k' v'] d IH]; simpl; auto.
  intros H. apply not_elem_of_cons in H as [H1 H2].
  destruct (decide (k' = k)); [congruence|]. simpl. f_equal. auto.
Qed.

Lemma elem_of_keys_set d k v k' :
  k' ∈ keys (set d k v) ↔ k' = k ∨ k' ∈ keys d.
Proof.
  destruct (decide (k ∈ keys d)) as [Hin|Hnin].
  - rewrite keys_set_in by auto. split; [auto|]. intros [->|]; auto.
  - rewrite keys_set_notin by auto. rewrite elem_of_app, list_elem_of_singleton.
    tauto.
Qed.

Lemma NoDup_keys_set d k v : NoDup (keys d) → NoDup (keys (set d k v)).
Proof.
  intros Hnd. destruct (decide (k ∈ keys d)) as [Hin|Hnin].
  - rewrite keys_set_in; auto.
  - rewrite keys_set_notin by auto. apply NoDup_app. split; [auto|].
    split; [|apply NoDup_singleton].
    intros x Hx Hx'. apply list_elem_of_singleton in Hx'. congruence.
Qed.

Lemma elem_of_get d k v : NoDup (keys d) → (k, v) ∈ d → get d k = Some v.
Proof.
  induction d as [|[k' v'] d IH]; simpl.
  - intros _ H. inversion H.
  - intros Hnd H. apply NoDup_cons in Hnd as [Hk Hnd].
    apply elem_of_cons in H as [Heq|H].
    + inversion Heq; subst. rewrite decide_True; auto.
    + destruct (decide (k' = k)) as [->|Hne]; auto.
      exfalso. apply Hk. unfold keys. apply list_elem_of_fmap.
      exists (k, v). auto.
Qed.

Lemma get_elem_of d k v : get d k = Some v → (k, v) ∈ d.
Proof.
  induction d as [|[k' v'] d IH]; simpl; [discriminate|].
  destruct (decide (k' = k)) as [->|Hne]; intros H.
  - inversion H; subst. left.
  - right. auto.
Qed.

Lemma del_get d k d' k' :
  NoDup (keys d) → del d k = Some d' →
  get d' k' = if decide (k = k') then None else get d k'.
Proof.
  revert d'. induction d as [|[k0 v0] d IH]; simpl; [discriminate|].
  intros d' Hnd. apply NoDup_cons in Hnd as [Hk Hnd].
  destruct (decide (k0 = k)) as [->|Hne].
  - intros [= <-]. destruct (decide (k = k')) as [<-|]; auto.
    apply get_None_keys; auto.
  - destruct (del d k) as [d''|] eqn:E; [|discriminate].
    intros [= <-]. simpl. destruct (decide (k0 = k')) as [->|Hne'].
    + rewrite decide_False; auto.
    + apply IH; auto.
Qed.

Lemma del_None d k : del d k = None ↔ k ∉ keys d.
Proof.
  induction d as [|[k0 v0] d IH]; simpl.
  - split; auto. intros _ H; inversion H.
  - destruct (decide (k0 = k)) as [->|Hne].
    + split; [discriminate|]. intros H. exfalso. apply H. left.
    + rewrite not_elem_of_cons. destruct (del d k); split.
      * discriminate.
      * intros [_ H]. apply IH in H. discriminate.
      * intros _. split; [congruence|]. apply IH; auto.
      * auto.
Qed.
End DictFacts.
End DictFacts.
Import DictFacts.

(** ** Distances *)

Lemma num_le_refl a : num_le a a.
Proof. num_solve. Qed.

Lemma num_le_trans a b c : num_le a b → num_le b c → num_le a c.
Proof. intros; num_solve. Qed.

Lemma num_le_succ a : num_le a (num_succ a).
Proof. num_solve. Qed.

Lemma num_ltb_false_le a b : num_ltb a b = false → num_le b a.
Proof. intros; num_solve. Qed.

Lemma num_ltb_true_le a b : num_ltb a b = true → num_le a b.
Proof. intros; num_solve. Qed.

Lemma num_ltb_le_false a b : num_le b a → num_ltb a b = false.
Proof. intros; num_solve. Qed.

Lemma num_ltb_succ_fin a b : num_ltb (num_succ a) b = true → ∃ n, a = Fin n.
Proof. destruct a; simpl; eauto. discriminate. Qed.

(** ** Walks *)

Lemma walk_app edges u p1 w p2 v :
  walk edges u p1 w → walk edges w p2 v → walk edges u (p1 ++ p2) v.
Proof.
  revert u. induction p1 as [|e p1 IH]; simpl; intros u.
  - intros ->. auto.
  - intros (He & Hs & Hw) H2. repeat split; auto.
Qed.

Lemma walk_snoc edges u p w e :
  walk edges u p w → e ∈ edges → src e = w →
  walk edges u (p ++ [e]) (dst e).
Proof.
  intros Hw He Hs. eapply walk_app; eauto. simpl. auto.
Qed.

(** A walk is cut at its [i]-th switch. *)
Lemma walk_split edges u p v (i : nat) w :
  walk edges u p v → walk_vertices u p !! i = Some w →
  ∃ p1 p2, p = p1 ++ p2 ∧ length p1 = i ∧
           walk edges u p1 w ∧ walk edges w p2 v.
Proof.
  revert u i. induction p as [|e p IH]; intros u i Hw Hi.
  - destruct i as [|i]; simpl in Hi; [|discriminate].
    injection Hi as <-. exists [], []. simpl in *. auto.
  - destruct i as [|i].
    + simpl in Hi. injection Hi as <-. exists [], (e :: p). simpl. auto.
    + simpl in Hw. destruct Hw as (He & Hs & Hw).
      destruct (IH (dst e) i Hw) as (p1 & p2 & -> & Hl & H1 & H2).
      { exact Hi. }
      exists (e :: p1), p2. simpl. repeat split; auto.
Qed.

(** ** The pieces of an iteration *)

Lemma min_from_spec l : ∀ best,
  ∃ du, (min_from best l, du) ∈ best :: l ∧
        ∀ kd, kd ∈ best :: l → num_le du kd.2.
Proof.
  induction l as [|kv l IH]; intros [k d]; simpl.
  - exists d. split; [left|].
    intros kd Hkd. apply list_elem_of_singleton in Hkd as ->. apply num_le_refl.
  - destruct (num_ltb kv.2 d) eqn:Hlt.
    + destruct (IH kv) as (du & Hin & Hmin). exists du. split.
      * right. exact Hin.
      * intros kd Hkd. apply elem_of_cons in Hkd as [->|Hkd]; [|auto].
        simpl. apply num_le_trans with kv.2.
        -- apply Hmin. left.
        -- apply num_ltb_true_le. exact Hlt.
    + destruct (IH (k, d)) as (du & Hin & Hmin). exists du. split.
      * apply elem_of_cons in Hin as [Hin|Hin]; [rewrite Hin; left|].
        right. right. exact Hin.
      * intros kd Hkd. apply elem_of_cons in Hkd as [->|Hkd]; [apply Hmin; left|].
        apply elem_of_cons in Hkd as [->|Hkd]; [|apply Hmin; right; auto].
        apply num_le_trans with d.
        -- apply (Hmin (k, d)). left.
        -- apply num_ltb_false_le. exact Hlt.
Qed.

Lemma py_min_spec l :
  l ≠ [] →
  ∃ u du, py_min l = Ok u ∧ (u, du) ∈ l ∧ ∀ k d, (k, d) ∈ l → num_le du d.
Proof.
  destruct l as [|kv l]; [congruence|]. intros _.
  destruct (min_from_spec l kv) as (du & Hin & Hmin).
  exists (min_from kv l), du. split; [reflexivity|]. split; [exact Hin|].
  intros k d Hkd. apply (Hmin (k, d)). exact Hkd.
Qed.

Lemma list_remove_spec x l :
  x ∈ l →
  ∃ l', list_remove x l = Ok l' ∧ length l = S (length l') ∧
        (∀ y, y ∈ l' → y ∈ l) ∧ (∀ y, y ∈ l → y = x ∨ y ∈ l').
Proof.
  induction l as [|y l IH]; intros Hin; [inversion Hin|]. simpl.
  destruct (decide (y = x)) as [->|Hne].
  - exists l. repeat split; auto.
    + intros z Hz. right. auto.
    + intros z Hz. apply elem_of_cons in Hz. tauto.
  - apply elem_of_cons in Hin as [->|Hin]; [congruence|].
    destruct (IH Hin) as (l' & -> & Hlen & Hsub & Hsup).
    exists (y :: l'). repeat split; simpl; auto.
    + intros z Hz. apply elem_of_cons in Hz as [->|Hz]; [left|right; auto].
    + intros z Hz. apply elem_of_cons in Hz as [->|Hz].
      * right. left.
      * destruct (Hsup z Hz); auto. right. right. auto.
Qed.

Lemma relax_all_spec u du : ∀ neighbors dist prev,
  Dict.get dist u = Some du →
  (∀ e, e ∈ neighbors → dst e ∈ Dict.keys dist) →
  Dict.keys prev = Dict.keys dist →
  ∃ dist' prev',
    relax_all u neighbors (dist, prev) = Ok (dist', prev') ∧
    Dict.keys dist' = Dict.keys dist ∧
    Dict.keys prev' = Dict.keys prev ∧
    Dict.get dist' u = Some du ∧
    lowered u du neighbors dist dist' ∧
    (∀ e, e ∈ neighbors →
          ∃ dv, Dict.get dist' (dst e) = Some dv ∧ num_le dv (num_succ du)).
Proof.
  induction neighbors as [|e rest IH]; intros dist prev Hu Hdst Hprev.
  - exists dist, prev. simpl. repeat split; auto.
    + intros x dx Hx. left. exact Hx.
    + intros e He. inversion He.
  - assert (He : dst e ∈ Dict.keys dist) by (apply Hdst; left).
    destruct (keys_get_Some _ _ He) as [dv Hdv].
    simpl. rewrite Hu, Hdv.
    destruct (num_ltb (num_succ du) dv) eqn:Hlt.
    + assert (Hne : dst e ≠ u).
      { intros Heq. rewrite Heq in Hdv. rewrite Hu in Hdv.
        injection Hdv as <-. clear -Hlt. num_solve. }
      destruct (IH (Dict.set dist (dst e) (num_succ du))
                   (Dict.set prev (dst e) (Some (u, port e))))
        as (dist' & prev' & Hrun & Hk & Hkp & Hu' & Hlow & Hrel).
      { rewrite get_set_ne; auto. }
      { intros e' He'. rewrite keys_set_in by exact He. apply Hdst. right. auto. }
      { rewrite !keys_set_in; auto. rewrite Hprev. exact He. }
      exists dist', prev'. split; [exact Hrun|].
      rewrite keys_set_in in Hk by exact He.
      rewrite keys_set_in in Hkp by (rewrite Hprev; exact He).
      repeat split; auto.
      * intros x dx Hx. destruct (decide (dst e = x)) as [Hex|Hex].
        -- subst x. rewrite Hdv in Hx. injection Hx as <-.
           destruct (Hlow (dst e) (num_succ du)) as [H1|(_ & H1 & _)].
           { apply get_set_eq. }
           ++ right. repeat split; auto. exists e. split; [left|auto].
           ++ exfalso. clear -H1. num_solve.
        -- destruct (Hlow x dx) as [H1|(H1 & H2 & e' & He' & Hd')].
           { rewrite get_set_ne; auto. }
           ++ left. exact H1.
           ++ right. repeat split; auto. exists e'. split; [right|]; auto.
      * intros e' He'. apply elem_of_cons in He' as [->|He']; [|auto].
        destruct (Hlow (dst e) (num_succ du)) as [H1|(H1 & _)].
        { apply get_set_eq. }
        -- exists (num_succ du). split; [exact H1|apply num_le_refl].
        -- exists (num_succ du). split; [exact H1|apply num_le_refl].
    + destruct (IH dist prev) as (dist' & prev' & Hrun & Hk & Hkp & Hu' & Hlow & Hrel);
        auto.
      { intros e' He'. apply Hdst. right. auto. }
      exists dist', prev'. split; [exact Hrun|]. repeat split; auto.
      * intros x dx Hx. destruct (Hlow x dx Hx) as [H1|(H1 & H2 & e' & He' & Hd')].
        -- left. exact H1.
        -- right. repeat split; auto. exists e'. split; [right|]; auto.
      * intros e' He'. apply elem_of_cons in He' as [->|He']; [|auto].
        destruct (Hlow (dst e) dv Hdv) as [H1|(H1 & _)].
        -- exists dv. split; [exact H1|]. apply num_ltb_false_le. exact Hlt.
        -- exists (num_succ du). split; [exact H1|apply num_le_refl].
Qed.

Lemma lowered_inv u du neighbors dist dist' x dx' :
  lowered u du neighbors dist dist' →
  Dict.keys dist' = Dict.keys dist →
  Dict.get dist' x = Some dx' →
  ∃ dx, Dict.get dist x = Some dx ∧
        (dx' = dx ∨
         (dx' = num_succ du ∧ num_ltb (num_succ du) dx = true ∧
          ∃ e, e ∈ neighbors ∧ dst e = x)).
Proof.
  intros Hlow Hk Hx'.
  assert (Hin : x ∈ Dict.keys dist).
  { rewrite <- Hk. eapply get_Some_keys; eauto. }
  destruct (keys_get_Some _ _ Hin) as [dx Hx]. exists dx. split; [exact Hx|].
  destruct (Hlow x dx Hx) as [H1|(H1 & H2 & H3)].
  - left. congruence.
  - right. repeat split; auto. congruence.
Qed.

Lemma dijkstra_loop_unfold fuel edges dist prev unvisited :
  unvisited ≠ [] →
  dijkstra_loop (S fuel) edges dist prev unvisited =
  match py_min (filter (λ kv, kv.1 ∈ unvisited) dist) with
  | Ok u =>
      match list_remove u unvisited with
      | Ok unvisited' =>
          match relax_all u (filter (λ x, src x = u) edges) (dist, prev) with
          | Ok (dist', prev') =>
              dijkstra_loop fuel edges dist' prev' unvisited'
          | Raise e => Raise e
          | OutOfFuel => OutOfFuel
          end
      | Raise e => Raise e
      | OutOfFuel => OutOfFuel
      end
  | Raise e => Raise e
  | OutOfFuel => OutOfFuel
  end.
Proof. destruct unvisited; [congruence|reflexivity]. Qed.

(** ** The loop keeps its invariant *)

Section DijkstraCorrect.
Variables (vertices : list Z) (edges : list edge) (source : Z).
Hypothesis closed : links_closed vertices edges.

Lemma dijkstra_step dist prev unvisited :
  dijkstra_inv vertices edges source dist prev unvisited →
  unvisited ≠ [] →
  ∃ u unvisited' dist' prev',
    py_min (filter (λ kv, kv.1 ∈ unvisited) dist) = Ok u ∧
    list_remove u unvisited = Ok unvisited' ∧
    relax_all u (filter (λ x, src x = u) edges) (dist, prev)
      = Ok (dist', prev') ∧
    length unvisited = S (length unvisited') ∧
    dijkstra_inv vertices edges source dist' prev' unvisited'.
Proof.
  intros [Hnd Hkeys Hprev Hsrc Hsound Hunv Hset] Hne.
  (* the selection *)
  destruct (py_min_spec (filter (λ kv, kv.1 ∈ unvisited) dist))
    as (u & du & Hmin & Hin & Hleast).
  { destruct unvisited as [|w0 us]; [congruence|].
    assert (Hw0 : w0 ∈ Dict.keys dist) by (apply Hkeys, Hunv; left).
    destruct (keys_get_Some _ _ Hw0) as [d0 Hd0].
    intros Hnil.
    assert (Hf : (w0, d0) ∈ filter (λ kv : Z * num, kv.1 ∈ w0 :: us) dist).
    { apply list_elem_of_filter. split; [simpl; left|].
      apply get_elem_of. exact Hd0. }
    rewrite Hnil in Hf. inversion Hf. }
  apply list_elem_of_filter in Hin as [Huin Hudist]. simpl in Huin.
  assert (Hu : Dict.get dist u = Some du) by (apply elem_of_get; auto).
  assert (Hleast' : ∀ w dw, w ∈ unvisited → Dict.get dist w = Some dw →
                            num_le du dw).
  { intros w dw Hw Hdw. apply (Hleast w dw).
    apply list_elem_of_filter. split; [exact Hw|].
    apply get_elem_of. exact Hdw. }
  destruct (list_remove_spec u unvisited Huin)
    as (unvisited' & Hrem & Hlen & Hsub & Hsup).
  (* the relaxation *)
  destruct (relax_all_spec u du (filter (λ x, src x = u) edges) dist prev)
    as (dist' & prev' & Hrun & Hk & Hkp & Hu' & Hlow & Hrel); auto.
  { intros e He. apply list_elem_of_filter in He as [Hs He].
    apply Hkeys. apply closed; auto. rewrite Hs. auto. }
  exists u, unvisited', dist', prev'. repeat split; auto.
  - rewrite Hk. exact Hnd.
  - rewrite Hk. apply Hkeys.
  - rewrite Hk. apply Hkeys.
  - congruence.
  - destruct (Hlow source (Fin 0) Hsrc) as [H1|(_ & H1 & _)]; [exact H1|].
    exfalso. clear -H1. num_solve.
  - intros v n Hv.
    destruct (lowered_inv _ _ _ _ _ _ _ Hlow Hk Hv)
      as (dx & Hx & [<-|(Heq & Hlt & e & He & Hd)]).
    + apply Hsound. exact Hx.
    + destruct (num_ltb_succ_fin _ _ Hlt) as [m ->]. simpl in Heq.
      injection Heq as ->.
      destruct (Hsound u m Hu) as (p & Hp & Hpl).
      apply list_elem_of_filter in He as [Hs He].
      exists (p ++ [e]). split.
      * rewrite <- Hd. apply walk_snoc with (w := u); auto.
      * rewrite length_app. simpl. lia.
  - intros x Hx.
    assert (Hold : ∀ w dw', w ∈ unvisited' → Dict.get dist' w = Some dw' →
                           ∀ dx, (∀ w dw, w ∈ unvisited →
                                   Dict.get dist w = Some dw → num_le dx dw) →
                                 num_le dx du → num_le dx dw').
    { intros w dw' Hw Hdw' dx Hdx Hdxu.
      destruct (lowered_inv _ _ _ _ _ _ _ Hlow Hk Hdw')
        as (dw & Hdw & [->|(-> & _)]).
      - apply (Hdx w); auto.
      - apply num_le_trans with du; [exact Hdxu|apply num_le_succ]. }
    destruct (Hset x Hx) as [Hxin|(dx & Hdx & Hxlow & Hxrel)].
    + destruct (Hsup x Hxin) as [->|Hx']; [|left; exact Hx'].
      destruct (decide (u ∈ unvisited')) as [Hu2|Hu2]; [left; exact Hu2|].
      right. exists du. repeat split; auto.
      * intros w dw' Hw Hdw'.
        apply (Hold w dw' Hw Hdw' du); auto. apply num_le_refl.
      * intros e He Hs. apply Hrel. apply list_elem_of_filter. auto.
    + right.
      assert (Hdxu : num_le dx du) by (apply (Hxlow u); auto).
      exists dx. repeat split.
      * destruct (Hlow x dx Hdx) as [H1|(_ & H1 & _)]; [exact H1|].
        exfalso. clear -H1 Hdxu. num_solve.
      * intros w dw' Hw Hdw'. apply (Hold w dw' Hw Hdw' dx); auto.
      * intros e He Hs. destruct (Hxrel e He Hs) as (dv & Hdv & Hle).
        destruct (Hlow (dst e) dv Hdv) as [H1|(H1 & H2 & _)].
        -- exists dv. auto.
        -- exists (num_succ du). split; [exact H1|].
           apply num_le_trans with dv; [|exact Hle].
           apply num_ltb_true_le. exact H2.
Qed.

Lemma dijkstra_loop_spec : ∀ fuel dist prev unvisited,
  (length unvisited ≤ fuel)%nat →
  dijkstra_inv vertices edges source dist prev unvisited →
  ∃ dist' prev',
    dijkstra_loop fuel edges dist prev unvisited = Ok (dist', prev') ∧
    dijkstra_inv vertices edges source dist' prev' [].
Proof.
  induction fuel as [|fuel IH]; intros dist prev unvisited Hlen Hinv.
  - destruct unvisited; [|simpl in Hlen; lia]. exists dist, prev. auto.
  - destruct (decide (unvisited = [])) as [->|Hne]; [exists dist, prev; auto|].
    destruct (dijkstra_step dist prev unvisited Hinv Hne)
      as (u & unvisited' & dist' & prev' & Hmin & Hrem & Hrel & Hl & Hinv').
    destruct (IH dist' prev' unvisited') as (dist'' & prev'' & Hrun & Hfin);
      [lia|exact Hinv'|].
    exists dist'', prev''. split; [|exact Hfin].
    rewrite dijkstra_loop_unfold by exact Hne.
    rewrite Hmin, Hrem, Hrel. exact Hrun.
Qed.

(** ** What the invariant gives when no switch is left to visit *)

Lemma final_bound dist prev :
  dijkstra_inv vertices edges source dist prev [] →
  ∀ p u v m,
    Dict.get dist u = Some (Fin m) → walk edges u p v →
    ∃ k, Dict.get dist v = Some (Fin k) ∧ (k ≤ m + length p)%nat.
Proof.
  intros Hinv. induction p as [|e p IH]; intros u v m Hu Hw; simpl in Hw.
  - subst v. exists m. split; [exact Hu|simpl; lia].
  - destruct Hw as (He & Hs & Hw).
    assert (Huv : u ∈ vertices).
    { apply (inv_keys _ _ _ _ _ _ Hinv). eapply get_Some_keys; eauto. }
    destruct (inv_settled _ _ _ _ _ _ Hinv u Huv) as [Hin|(dx & Hdx & _ & Hrel)].
    { inversion Hin. }
    rewrite Hu in Hdx. injection Hdx as <-.
    destruct (Hrel e He Hs) as (dv & Hdv & Hle).
    destruct dv as [k|]; [|simpl in Hle; contradiction]. simpl in Hle.
    destruct (IH (dst e) v k Hdv Hw) as (k' & Hk' & Hle').
    exists k'. split; [exact Hk'|simpl; lia].
Qed.

Lemma final_shortest dist prev :
  dijkstra_inv vertices edges source dist prev [] →
  shortest_distances vertices edges source dist.
Proof.
  intros Hinv. split; [apply (inv_source _ _ _ _ _ _ Hinv)|].
  intros v Hv. apply (inv_keys _ _ _ _ _ _ Hinv) in Hv.
  destruct (keys_get_Some _ _ Hv) as [d Hd]. exists d. split; [exact Hd|].
  destruct d as [n|]; simpl.
  - split; [apply (inv_sound _ _ _ _ _ _ Hinv); exact Hd|].
    intros p Hp.
    destruct (final_bound dist prev Hinv p source v 0%nat) as (k & Hk & Hle);
      auto.
    { apply (inv_source _ _ _ _ _ _ Hinv). }
    rewrite Hd in Hk. injection Hk as ->. lia.
  - intros p Hp.
    destruct (final_bound dist prev Hinv p source v 0%nat) as (k & Hk & Hle);
      auto.
    { apply (inv_source _ _ _ _ _ _ Hinv). }
    congruence.
Qed.

Lemma final_one_hop dist prev :
  dijkstra_inv vertices edges source dist prev [] →
  one_hop_per_link vertices edges dist.
Proof.
  intros Hinv e He Hs.
  destruct (inv_settled _ _ _ _ _ _ Hinv (src e) Hs) as [Hin|(dx & Hdx & _ & Hrel)].
  { inversion Hin. }
  destruct (Hrel e He eq_refl) as (dv & Hdv & Hle).
  exists dx, dv. auto.
Qed.

Lemma final_counts_hops dist prev :
  dijkstra_inv vertices edges source dist prev [] →
  counts_hops_on_shortest_walks edges source dist.
Proof.
  intros Hinv p v Hp Hv i w Hi.
  destruct (walk_split _ _ _ _ _ _ Hp Hi) as (p1 & p2 & -> & Hl & H1 & H2).
  destruct (final_bound dist prev Hinv p1 source w 0%nat) as (k & Hk & Hle);
    auto.
  { apply (inv_source _ _ _ _ _ _ Hinv). }
  destruct (final_bound dist prev Hinv p2 w v k Hk H2) as (k2 & Hk2 & Hle2).
  rewrite Hv in Hk2. injection Hk2 as <-. rewrite length_app in Hle2.
  rewrite Hk. f_equal. f_equal. lia.
Qed.

End DijkstraCorrect.

(** ** Initialisation *)

Lemma keys_set_same {A B} (d : list (Z * A)) (p : list (Z * B)) k x y :
  Dict.keys p = Dict.keys d →
  Dict.keys (Dict.set p k x) = Dict.keys (Dict.set d k y).
Proof.
  intros Hk. destruct (decide (k ∈ Dict.keys d)) as [Hin|Hnin].
  - rewrite !keys_set_in; auto. rewrite Hk. exact Hin.
  - rewrite !keys_set_notin; auto; [congruence|]. rewrite Hk. exact Hnin.
Qed.

Lemma dijkstra_init_spec : ∀ vs dist prev unvisited,
  Dict.keys prev = Dict.keys dist → NoDup (Dict.keys dist) →
  ∃ dist' prev',
    dijkstra_init vs (dist, prev, unvisited)
      = (dist', prev', unvisited ++ vs) ∧
    Dict.keys prev' = Dict.keys dist' ∧ NoDup (Dict.keys dist') ∧
    (∀ v, v ∈ Dict.keys dist' ↔ v ∈ Dict.keys dist ∨ v ∈ vs) ∧
    (∀ v, v ∈ vs → Dict.get dist' v = Some Inf) ∧
    (∀ v, v ∉ vs → Dict.get dist' v = Dict.get dist v).
Proof.
  induction vs as [|a vs IH]; intros dist prev unvisited Hk Hnd.
  - exists dist, prev. simpl. rewrite app_nil_r. repeat split; auto.
    + intros [H|H]; [exact H|inversion H].
    + intros v H. inversion H.
  - destruct (IH (Dict.set dist a Inf) (Dict.set prev a None)
                 (unvisited ++ [a]))
      as (dist' & prev' & Hrun & Hk' & Hnd' & Hkeys & Hin & Hout).
    { apply keys_set_same. exact Hk. }
    { apply NoDup_keys_set. exact Hnd. }
    exists dist', prev'. simpl. rewrite Hrun, <- app_assoc. simpl.
    repeat split; auto.
    + intros Hv. apply Hkeys in Hv as [Hv|Hv].
      * apply elem_of_keys_set in Hv as [->|Hv]; [right; left|left; exact Hv].
      * right. right. exact Hv.
    + intros [Hv|Hv]; apply Hkeys.
      * left. apply elem_of_keys_set. right. exact Hv.
      * apply elem_of_cons in Hv as [->|Hv]; [left|right; exact Hv].
        apply elem_of_keys_set. left. reflexivity.
    + intros v Hv. destruct (decide (v ∈ vs)) as [Hvs|Hvs]; [apply Hin; exact Hvs|].
      apply elem_of_cons in Hv as [->|Hv]; [|contradiction].
      rewrite Hout by exact Hvs. apply get_set_eq.
    + intros v Hv. apply not_elem_of_cons in Hv as [Hne Hv].
      rewrite Hout by exact Hv. apply get_set_ne. congruence.
Qed.

(** dijkstra returns, and what it returns satisfies the invariant with
    nothing left to visit. *)
Lemma dijkstra_returns vertices edges source :
  source ∈ vertices → links_closed vertices edges →
  ∃ dist prev,
    dijkstra vertices edges source = Ok (dist, prev) ∧
    dijkstra_inv vertices edges source dist prev [].
Proof.
  intros Hs Hclosed. unfold dijkstra. rewrite decide_True by exact Hs.
  destruct (dijkstra_init_spec vertices [] [] [])
    as (dist & prev & Hrun & Hk & Hnd & Hkeys & Hin & Hout).
  { reflexivity. }
  { apply NoDup_nil. constructor. }
  rewrite Hrun. simpl.
  apply dijkstra_loop_spec; [exact Hclosed|lia|].
  assert (Hsk : source ∈ Dict.keys dist) by (apply Hkeys; right; exact Hs).
  split.
  - apply NoDup_keys_set. exact Hnd.
  - intros v. rewrite keys_set_in by exact Hsk. rewrite Hkeys. split.
    + intros [H|H]; [inversion H|exact H].
    + auto.
  - rewrite keys_set_in by exact Hsk. exact Hk.
  - apply get_set_eq.
  - intros v n. rewrite get_set.
    destruct (decide (source = v)) as [->|Hne].
    + intros [= <-]. exists []. simpl. auto.
    + intros Hv. destruct (decide (v ∈ vertices)) as [Hvin|Hvout].
      * rewrite Hin in Hv by exact Hvin. discriminate.
      * rewrite Hout in Hv by exact Hvout. discriminate.
  - auto.
  - auto.
Qed.

(** The fuel given to the loop is enough whatever the input: an iteration
    raises or takes one switch out of [unvisited]. *)
Lemma relax_all_fuel u : ∀ neighbors dp, relax_all u neighbors dp ≠ OutOfFuel.
Proof.
  induction neighbors as [|e rest IH]; intros [dist prev]; simpl; [discriminate|].
  destruct (Dict.get dist u); [|discriminate].
  destruct (Dict.get dist (dst e)); [|discriminate].
  destruct (num_ltb _ _); apply IH.
Qed.

Lemma dijkstra_loop_fuel edges : ∀ fuel dist prev unvisited,
  (length unvisited ≤ fuel)%nat →
  dijkstra_loop fuel edges dist prev unvisited ≠ OutOfFuel.
Proof.
  induction fuel as [|fuel IH]; intros dist prev unvisited Hlen.
  - destruct unvisited; [discriminate|simpl in Hlen; lia].
  - destruct (decide (unvisited = [])) as [->|Hne]; [discriminate|].
    rewrite dijkstra_loop_unfold by exact Hne.
    destruct (filter (λ kv : Z * num, kv.1 ∈ unvisited) dist) as [|kv l] eqn:Ef;
      [discriminate|].
    simpl.
    destruct (min_from_spec l kv) as (du & Hin & _).
    rewrite <- Ef in Hin. apply list_elem_of_filter in Hin as [Hu _].
    simpl in Hu.
    destruct (list_remove_spec _ _ Hu) as (unvisited' & -> & Hl & _).
    destruct (relax_all _ _ _) as [[dist' prev']| |] eqn:Er; [|discriminate|].
    + apply IH. lia.
    + exfalso. eapply relax_all_fuel. exact Er.
Qed.

Lemma dijkstra_fuel vertices edges source :
  dijkstra vertices edges source ≠ OutOfFuel.
Proof.
  unfold dijkstra. destruct (decide (source ∈ vertices)); [|discriminate].
  destruct (dijkstra_init_spec vertices [] [] [])
    as (dist & prev & Hrun & _); [reflexivity|apply NoDup_nil; constructor|].
  rewrite Hrun. apply dijkstra_loop_fuel. simpl. lia.
Qed.

(** ** Links that leave the snapshot *)

Lemma relax_all_cases u : ∀ neighbors dist prev,
  u ∈ Dict.keys dist →
  (∃ dist' prev',
     relax_all u neighbors (dist, prev) = Ok (dist', prev') ∧
     Dict.keys dist' = Dict.keys dist ∧
     ∀ e, e ∈ neighbors → dst e ∈ Dict.keys dist) ∨
  (relax_all u neighbors (dist, prev) = Raise KeyError ∧
   ∃ e, e ∈ neighbors ∧ dst e ∉ Dict.keys dist).
Proof.
  induction neighbors as [|e rest IH]; intros dist prev Hu.
  - left. exists dist, prev. repeat split; auto. intros e He. inversion He.
  - destruct (keys_get_Some _ _ Hu) as [du Hdu]. simpl. rewrite Hdu.
    destruct (Dict.get dist (dst e)) as [dv|] eqn:Hdv.
    + assert (Hin : dst e ∈ Dict.keys dist) by (eapply get_Some_keys; eauto).
      assert (Hstep : ∀ dist1 prev1,
                Dict.keys dist1 = Dict.keys dist →
                (∃ dist' prev',
                   relax_all u rest (dist1, prev1) = Ok (dist', prev') ∧
                   Dict.keys dist' = Dict.keys dist ∧
                   ∀ e0, e0 ∈ e :: rest → dst e0 ∈ Dict.keys dist) ∨
                (relax_all u rest (dist1, prev1) = Raise KeyError ∧
                 ∃ e0, e0 ∈ e :: rest ∧ dst e0 ∉ Dict.keys dist)).
      { intros dist1 prev1 Hk.
        destruct (IH dist1 prev1) as [(d' & p' & Hrun & Hk' & Hall)|(Hrun & e0 & He0 & Hbad)].
        - rewrite Hk. exact Hu.
        - left. exists d', p'. split; [exact Hrun|]. split; [congruence|].
          intros e0 He0. apply elem_of_cons in He0 as [->|He0]; [exact Hin|].
          rewrite <- Hk. auto.
        - right. split; [exact Hrun|]. exists e0. split; [right; exact He0|].
          rewrite <- Hk. exact Hbad. }
      destruct (num_ltb (num_succ du) dv).
      * apply Hstep. apply keys_set_in. exact Hin.
      * apply Hstep. reflexivity.
    + right. split; [reflexivity|]. exists e. split; [left|].
      apply get_None_keys. exact Hdv.
Qed.

Lemma dijkstra_loop_dangling edges : ∀ fuel dist prev unvisited,
  (length unvisited ≤ fuel)%nat →
  (∀ w, w ∈ unvisited → w ∈ Dict.keys dist) →
  (∃ e, e ∈ edges ∧ src e ∈ unvisited ∧ dst e ∉ Dict.keys dist) →
  dijkstra_loop fuel edges dist prev unvisited = Raise KeyError.
Proof.
  induction fuel as [|fuel IH]; intros dist prev unvisited Hlen Hkeys Hbad.
  - destruct Hbad as (e & _ & Hs & _).
    destruct unvisited; [inversion Hs|simpl in Hlen; lia].
  - destruct Hbad as (e & He & Hs & Hd).
    assert (Hne : unvisited ≠ []) by (intros ->; inversion Hs).
    rewrite dijkstra_loop_unfold by exact Hne.
    destruct (filter (λ kv : Z * num, kv.1 ∈ unvisited) dist) as [|kv l] eqn:Ef.
    { exfalso. destruct (keys_get_Some _ _ (Hkeys _ Hs)) as [d Hget].
      assert (Hf : (src e, d) ∈ filter (λ kv : Z * num, kv.1 ∈ unvisited) dist).
      { apply list_elem_of_filter. split; [exact Hs|].
        apply get_elem_of. exact Hget. }
      rewrite Ef in Hf. inversion Hf. }
    simpl.
    destruct (min_from_spec l kv) as (du & Hin & _).
    rewrite <- Ef in Hin. apply list_elem_of_filter in Hin as [Hu Hudist].
    simpl in Hu.
    destruct (list_remove_spec _ _ Hu) as (unvisited' & -> & Hl & Hsub & Hsup).
    destruct (relax_all_cases (min_from kv l)
                (filter (λ x, src x = min_from kv l) edges) dist prev
                (Hkeys _ Hu))
      as [(dist' & prev' & -> & Hk & Hall)|(-> & _)]; [|reflexivity].
    apply IH; [lia| |].
    + intros w Hw. rewrite Hk. auto.
    + exists e. split; [exact He|]. rewrite Hk. split; [|exact Hd].
      destruct (Hsup _ Hs) as [Heq|Hin']; [|exact Hin'].
      exfalso. apply Hd. apply Hall. apply list_elem_of_filter. auto.
Qed.

(** A link from a switch of the snapshot to a switch outside of it makes
    dijkstra fail on [dist[v['dst']]]. *)
Lemma dijkstra_dangling vertices edges source :
  source ∈ vertices →
  (∃ e, e ∈ edges ∧ src e ∈ vertices ∧ dst e ∉ vertices) →
  dijkstra vertices edges source = Raise KeyError.
Proof.
  intros Hs (e & He & Hsrc & Hdst). unfold dijkstra.
  rewrite decide_True by exact Hs.
  destruct (dijkstra_init_spec vertices [] [] [])
    as (dist & prev & Hrun & _ & _ & Hkeys & _);
    [reflexivity|apply NoDup_nil; constructor|].
  rewrite Hrun. simpl.
  assert (Hsk : source ∈ Dict.keys dist) by (apply Hkeys; right; exact Hs).
  apply dijkstra_loop_dangling; [lia| |].
  - intros w Hw. rewrite keys_set_in by exact Hsk. apply Hkeys. right. exact Hw.
  - exists e. split; [exact He|]. split; [exact Hsrc|].
    rewrite keys_set_in by exact Hsk. intros Hin.
    apply Hkeys in Hin as [Hin|Hin]; [inversion Hin|contradiction].
Qed.

(** ** dijkstra on small snapshots *)

Example dijkstra_line :
  dijkstra [1; 2; 3; 4] [Edge 1 2 7; Edge 2 3 8; Edge 3 2 9] 1
  = Ok ([(1, Fin 0); (2, Fin 1); (3, Fin 2); (4, Inf)],
        [(1, None); (2, Some (1, 7)); (3, Some (2, 8)); (4, None)]).
Proof. vm_compute. reflexivity. Qed.

Example dijkstra_bad_source :
  dijkstra [1; 2] [Edge 1 2 7] 5 = Raise ValueError.
Proof. reflexivity. Qed.

Example dijkstra_dangling_link :
  dijkstra [1; 2] [Edge 1 9 7] 1 = Raise KeyError.
Proof. reflexivity. Qed.

(** ** The state monad *)

Lemma bind_ok {A B} (m : M A) (f : A → M B) s a s' :
  m s = (Ok a, s') → (m ≫= f) s = f a s'.
Proof. intros H. unfold mbind, M_bind. rewrite H. reflexivity. Qed.

Lemma bind_raise {A B} (m : M A) (f : A → M B) s e s' :
  m s = (Raise e, s') → (m ≫= f) s = (Raise e, s').
Proof. intros H. unfold mbind, M_bind. rewrite H. reflexivity. Qed.

Lemma store_rule_id rule r s :
  heap s !! rule = Some r → store_rule rule r s = s.
Proof.
  intros H. destruct s. unfold store_rule, set_heap. simpl in *.
  f_equal. apply insert_id. exact H.
Qed.

Lemma store_rule_twice rule r r' s :
  store_rule rule r' (store_rule rule r s) = store_rule rule r' s.
Proof.
  unfold store_rule, set_heap. simpl. f_equal. apply insert_insert_eq.
Qed.

Lemma heap_store_rule rule r s : heap (store_rule rule r s) !! rule = Some r.
Proof. unfold store_rule. simpl. apply lookup_insert_eq. Qed.

Lemma same_but_rule_store rule r s : same_but_rule rule s (store_rule rule r s).
Proof.
  unfold same_but_rule, store_rule. simpl. repeat split; auto.
  intros l Hl. apply lookup_insert_ne. congruence.
Qed.

Lemma deref_run rule r s : heap s !! rule = Some r → deref rule s = (Ok r, s).
Proof. intros H. unfold deref. rewrite H. reflexivity. Qed.

Lemma update_run rule f r s :
  heap s !! rule = Some r →
  update rule f s = (Ok (), store_rule rule (f r) s).
Proof.
  intros H. unfold update. rewrite (bind_ok _ _ _ _ _ (deref_run _ _ _ H)).
  reflexivity.
Qed.

(** ** Compilation *)

Lemma del_set_key {V} (d : list (string * V)) k v :
  ∃ m, Dict.del (Dict.set d k v) k = Some m ∧ (k ∉ Dict.keys d → m = d).
Proof.
  induction d as [|[k' v'] d IH]; simpl.
  - rewrite decide_True by reflexivity. exists []. auto.
  - destruct (decide (k' = k)) as [->|Hne]; simpl.
    + rewrite decide_True by reflexivity. exists d. split; [reflexivity|].
      intros H. exfalso. apply H. left.
    + rewrite decide_False by exact Hne.
      destruct IH as (m & -> & Hm). exists ((k', v') :: m).
      split; [reflexivity|]. intros H. apply not_elem_of_cons in H as [_ H].
      rewrite Hm; auto.
Qed.

Lemma compiled_from_refl r : compiled_from r r [].
Proof.
  unfold compiled_from. rewrite app_nil_r. repeat split; auto.
Qed.

Lemma compiled_from_trans r r1 r2 n1 n2 :
  compiled_from r r1 n1 → compiled_from r1 r2 n2 →
  compiled_from r r2 (n1 ++ n2).
Proof.
  intros (Hu & Hd & Hp & Hf & Hm & Hok) (Hu' & Hd' & Hp' & Hf' & Hm' & Hok').
  unfold compiled_from. repeat split; try congruence.
  - rewrite Hf', Hf. rewrite app_assoc. reflexivity.
  - intros H. rewrite Hm'; [auto|]. rewrite Hm; auto.
  - apply Forall_app. auto.
Qed.

Lemma compile_port_run rule datapath port in_port s r :
  heap s !! rule = Some r →
  ∃ r' new,
    compile_port rule datapath port [OFPActionOutput port] in_port s
      = (Ok (), store_rule rule r' s) ∧
    compiled_from r r' new.
Proof.
  intros H. unfold compile_port.
  destruct (decide (in_port = port)) as [Heq|Hne].
  { exists r, []. rewrite store_rule_id by exact H.
    split; [reflexivity|apply compiled_from_refl]. }
  destruct (decide (in_port = 65534)) as [Heq|Hne'].
  { exists r, []. rewrite store_rule_id by exact H.
    split; [reflexivity|apply compiled_from_refl]. }
  destruct (del_set_key (match_ r) "in_port" (PInt in_port)) as (m & Hdel & Hm).
  eexists _, _. split.
  - erewrite bind_ok by (apply update_run; exact H).
    erewrite bind_ok by (apply deref_run, heap_store_rule).
    simpl. rewrite Hdel.
    erewrite bind_ok by reflexivity.
    erewrite bind_ok by (apply update_run, heap_store_rule).
    erewrite update_run by apply heap_store_rule.
    rewrite !store_rule_twice. reflexivity.
  - unfold compiled_from. simpl. repeat split; auto.
    apply Forall_singleton. exists in_port, port. simpl.
    rewrite get_set_eq. repeat split; auto.
Qed.

Lemma compile_ports_run rule datapath port : ∀ l s r,
  heap s !! rule = Some r →
  ∃ r' new,
    for_each l (compile_port rule datapath port [OFPActionOutput port]) s
      = (Ok (), store_rule rule r' s) ∧
    compiled_from r r' new.
Proof.
  induction l as [|in_port l IH]; intros s r H.
  - exists r, []. rewrite store_rule_id by exact H.
    split; [reflexivity|apply compiled_from_refl].
  - destruct (compile_port_run rule datapath port in_port s r H)
      as (r1 & n1 & Hrun1 & Hc1).
    destruct (IH (store_rule rule r1 s) r1 (heap_store_rule _ _ _))
      as (r2 & n2 & Hrun2 & Hc2).
    exists r2, (n1 ++ n2). split.
    + simpl. erewrite bind_ok by exact Hrun1. rewrite Hrun2.
      rewrite store_rule_twice. reflexivity.
    + eapply compiled_from_trans; eauto.
Qed.

Lemma switch_found d s :
  d ∈ snapshot_switches s →
  ∃ sw rest,
    filter (λ switch, id (dp switch) = d) (topo_switches s) = sw :: rest.
Proof.
  unfold snapshot_switches. intros H.
  apply list_elem_of_fmap in H as (sw & Hd & Hin).
  assert (Hf : sw ∈ filter (λ switch, id (dp switch) = d) (topo_switches s)).
  { apply list_elem_of_filter. auto. }
  destruct (filter _ _) as [|sw' rest]; [inversion Hf|eauto].
Qed.

Lemma compile_pred_run rule preds pred s r :
  heap s !! rule = Some r →
  ∃ out r' new,
    compile_pred rule preds pred s = (out, store_rule rule r' s) ∧
    compiled_from r r' new ∧
    (out = Ok () ∨ ∃ e, out = Raise e) ∧
    (pred ∈ Dict.keys preds → pred ∈ snapshot_switches s →
     ttp_dpid r ∈ snapshot_switches s → out = Ok ()).
Proof.
  intros H. unfold compile_pred.
  destruct (Dict.get preds pred) as [p|] eqn:Hp.
  - erewrite bind_ok by reflexivity.
    destruct p as [[u port]|].
    + destruct (filter (λ switch, id (dp switch) = pred) (topo_switches s))
        as [|sw rest] eqn:Hf.
      * exists (Raise IndexError), r, [].
        rewrite store_rule_id by exact H. split.
        { unfold mbind, M_bind, get_switch, gets. rewrite Hf. reflexivity. }
        split; [apply compiled_from_refl|]. split; [eauto|].
        intros _ Hin _. destruct (switch_found _ _ Hin) as (sw & rest & Hsw).
        congruence.
      * destruct (compile_ports_run rule (dp sw) port (ports (dp sw)) s r H)
          as (r' & new & Hrun & Hc).
        exists (Ok ()), r', new. split.
        { unfold mbind, M_bind, get_switch, gets. rewrite Hf. simpl.
          exact Hrun. }
        split; [exact Hc|]. split; auto.
    + destruct (filter (λ switch, id (dp switch) = ttp_dpid r) (topo_switches s))
        as [|sw rest] eqn:Hf.
      * exists (Raise IndexError), r, [].
        rewrite store_rule_id by exact H. split.
        { unfold mbind, M_bind, get_switch, gets, deref. rewrite H, Hf.
          reflexivity. }
        split; [apply compiled_from_refl|]. split; [eauto|].
        intros _ _ Hin. destruct (switch_found _ _ Hin) as (sw & rest & Hsw).
        congruence.
      * destruct (compile_ports_run rule (dp sw) (ttp_port r) (ports (dp sw))
                    s r H) as (r' & new & Hrun & Hc).
        exists (Ok ()), r', new. split.
        { unfold mbind, M_bind, get_switch, gets, deref. rewrite H, Hf.
          simpl. rewrite H. simpl. exact Hrun. }
        split; [exact Hc|]. split; auto.
  - exists (Raise KeyError), r, [].
    rewrite store_rule_id by exact H. split; [reflexivity|].
    split; [apply compiled_from_refl|]. split; [eauto|].
    intros Hin _ _. apply keys_get_Some in Hin as [p Hp']. congruence.
Qed.

Lemma compile_preds_run rule preds : ∀ l s r,
  heap s !! rule = Some r →
  ∃ out r' new,
    for_each l (compile_pred rule preds) s = (out, store_rule rule r' s) ∧
    compiled_from r r' new ∧
    (out = Ok () ∨ ∃ e, out = Raise e) ∧
    ((∀ pred, pred ∈ l →
              pred ∈ Dict.keys preds ∧ pred ∈ snapshot_switches s) →
     ttp_dpid r ∈ snapshot_switches s → out = Ok ()).
Proof.
  induction l as [|pred l IH]; intros s r H.
  - exists (Ok ()), r, []. rewrite store_rule_id by exact H.
    split; [reflexivity|]. split; [apply compiled_from_refl|]. auto.
  - destruct (compile_pred_run rule preds pred s r H)
      as (out1 & r1 & n1 & Hrun1 & Hc1 & Hout1 & Hok1).
    destruct Hout1 as [->|[e ->]].
    + destruct (IH (store_rule rule r1 s) r1 (heap_store_rule _ _ _))
        as (out2 & r2 & n2 & Hrun2 & Hc2 & Hout2 & Hok2).
      exists out2, r2, (n1 ++ n2). split.
      { simpl. erewrite bind_ok by exact Hrun1. rewrite Hrun2.
        rewrite store_rule_twice. reflexivity. }
      split; [eapply compiled_from_trans; eauto|]. split; [exact Hout2|].
      intros Hall Ht. apply Hok2.
      * intros p Hp. apply Hall. right. exact Hp.
      * destruct Hc1 as (_ & -> & _). exact Ht.
    + exists (Raise e), r1, n1. split.
      { simpl. erewrite bind_raise by exact Hrun1. reflexivity. }
      split; [exact Hc1|]. split; [eauto|].
      intros Hall Ht. apply Hok1; auto; apply Hall; left.
Qed.

Lemma _compute_spanning_tree_run ttp s :
  _compute_spanning_tree ttp s
  = (dijkstra (snapshot_switches s) (snapshot_links s) ttp, s).
Proof. reflexivity. Qed.

(** What a compilation does, whatever its outcome: the state changes at
    most in the rule object, which gains the compiled rules. *)
Lemma _compile_rule_run rule s r :
  heap s !! rule = Some r →
  ∃ out r' new,
    _compile_rule rule s = (out, store_rule rule r' s) ∧
    compiled_from r r' new ∧
    (out = Ok () ∨ ∃ e, out = Raise e) ∧
    (ttp_dpid r ∈ snapshot_switches s →
     links_closed (snapshot_switches s) (snapshot_links s) → out = Ok ()) ∧
    (ttp_dpid r ∉ snapshot_switches s →
     out = Raise ValueError ∧ r' = r).
Proof.
  intros H. unfold _compile_rule.
  erewrite bind_ok by (apply deref_run; exact H).
  unfold mbind at 1. unfold M_bind. rewrite _compute_spanning_tree_run.
  destruct (dijkstra (snapshot_switches s) (snapshot_links s) (ttp_dpid r))
    as [[dist preds]|e|] eqn:Hd.
  - destruct (compile_preds_run rule preds (Dict.keys preds) s r H)
      as (out & r' & new & Hrun & Hc & Hout & Hok).
    exists out, r', new. split; [exact Hrun|]. split; [exact Hc|].
    split; [exact Hout|]. split.
    + intros Ht Hclosed.
      destruct (dijkstra_returns _ _ _ Ht Hclosed) as (dist' & prev' & Hd' & Hinv).
      rewrite Hd in Hd'. injection Hd' as <- <-.
      apply Hok; [|exact Ht]. intros pred Hp. split; [exact Hp|].
      apply (inv_keys _ _ _ _ _ _ Hinv).
      rewrite <- (inv_prev _ _ _ _ _ _ Hinv). exact Hp.
    + intros Ht. unfold dijkstra in Hd. rewrite decide_False in Hd by exact Ht.
      discriminate.
  - exists (Raise e), r, []. rewrite store_rule_id by exact H.
    split; [reflexivity|]. split; [apply compiled_from_refl|].
    split; [eauto|]. split.
    + intros Ht Hclosed.
      destruct (dijkstra_returns _ _ _ Ht Hclosed) as (dist' & prev' & Hd' & _).
      congruence.
    + intros Ht. unfold dijkstra in Hd. rewrite decide_False in Hd by exact Ht.
      split; congruence.
  - exfalso. eapply dijkstra_fuel. exact Hd.
Qed.

(** ** Sending *)

Lemma set_sent_id s : set_sent (sent s ++ []) s = s.
Proof. destruct s. unfold set_sent. simpl. rewrite app_nil_r. reflexivity. Qed.

Lemma send_all_run (f : OFPFlowMod → message) : ∀ l s,
  for_each l (λ m, send_msg (fm_datapath m) (f m)) s
  = (Ok (),
     set_sent (sent s ++ map (λ m, (id (fm_datapath m), f m)) l) s).
Proof.
  induction l as [|m l IH]; intros s.
  - simpl. rewrite set_sent_id. reflexivity.
  - simpl. erewrite bind_ok by reflexivity. rewrite IH.
    unfold set_sent. simpl. rewrite <- app_assoc. reflexivity.
Qed.

Lemma add_rule_run rule s out r' :
  _compile_rule rule s = (out, store_rule rule r' s) →
  add_rule rule s =
  match out with
  | Ok _ =>
      (Ok (),
       set_rules (Dict.set (rules s) (uuid r') rule)
         (set_sent (sent s ++ map install_of (flow_mods r'))
            (store_rule rule r' s)))
  | Raise e => (Raise e, store_rule rule r' s)
  | OutOfFuel => (OutOfFuel, store_rule rule r' s)
  end.
Proof.
  intros Hrun. unfold add_rule. destruct out as [[]|e|].
  - erewrite bind_ok by exact Hrun.
    erewrite bind_ok by (apply deref_run, heap_store_rule).
    erewrite bind_ok by apply send_all_run.
    erewrite bind_ok by (apply deref_run; apply heap_store_rule).
    reflexivity.
  - erewrite bind_raise by exact Hrun. reflexivity.
  - unfold mbind, M_bind. rewrite Hrun. reflexivity.
Qed.

Lemma _remove_reverse_path_run u s rule r :
  Dict.get (rules s) u = Some rule → heap s !! rule = Some r →
  _remove_reverse_path u s
  = (Ok (), set_sent (sent s ++ map delete_of (flow_mods r)) s).
Proof.
  intros Hu Hr. unfold _remove_reverse_path.
  erewrite bind_ok by reflexivity. rewrite Hu.
  erewrite bind_ok by (apply deref_run; exact Hr).
  apply send_all_run.
Qed.

Lemma _remove_reverse_path_unknown u s :
  Dict.get (rules s) u = None → _remove_reverse_path u s = (Raise KeyError, s).
Proof.
  intros Hu. unfold _remove_reverse_path.
  erewrite bind_ok by reflexivity. rewrite Hu. reflexivity.
Qed.

Lemma del_set_fresh {V} (d : list (Z * V)) k v :
  k ∉ Dict.keys d → Dict.del (Dict.set d k v) k = Some d.
Proof.
  induction d as [|[k' v'] d IH]; simpl; intros H.
  - rewrite decide_True by reflexivity. reflexivity.
  - apply not_elem_of_cons in H as [Hne H].
    rewrite decide_False by congruence. simpl.
    rewrite decide_False by congruence. rewrite IH by exact H. reflexivity.
Qed.

Lemma matching_delete_compiled l :
  Forall compiled_ok l →
  Forall2 matching_delete (map install_of l) (map delete_of l).
Proof.
  induction 1 as [|m l Hm _ IH]; simpl; constructor; [|exact IH].
  destruct Hm as (i & o & _ & _ & _ & _ & Hc & Hp).
  simpl. repeat split; auto.
Qed.


Lemma remove_rule_run u s rule r rs :
  Dict.get (rules s) u = Some rule → heap s !! rule = Some r →
  Dict.del (rules s) u = Some rs →
  remove_rule (Some u) s
  = (Ok (), set_rules rs (set_sent (sent s ++ map delete_of (flow_mods r)) s)).
Proof.
  intros Hu Hr Hdel. unfold remove_rule.
  erewrite bind_ok by (eapply _remove_reverse_path_run; eauto).
  unfold del_rules. erewrite bind_ok by reflexivity.
  simpl. rewrite Hdel. reflexivity.
Qed.

(** ** Forwarding tables *)

Lemma match_eqb_refl a : match_eqb a a = true.
Proof.
  unfold match_eqb. apply forallb_forall. intros k _.
  apply bool_decide_eq_true. reflexivity.
Qed.

Lemma same_entry_refl e : same_entry e e = true.
Proof.
  unfold same_entry. rewrite match_eqb_refl.
  rewrite !bool_decide_eq_true_2 by reflexivity. reflexivity.
Qed.

Lemma filter_keep {A} (f : A → bool) (l : list A) :
  (∀ x, x ∈ l → f x = true) → List.filter f l = l.
Proof.
  induction l as [|a l IH]; intros H; simpl; [reflexivity|].
  rewrite (H a) by left. f_equal. apply IH. intros x Hx. apply H. right.
  exact Hx.
Qed.

Lemma elem_of_bool_filter {A} (f : A → bool) (l : list A) x :
  x ∈ List.filter f l → x ∈ l ∧ f x = true.
Proof.
  induction l as [|a l IH]; simpl; intros H; [inversion H|].
  destruct (f a) eqn:Hfa.
  - apply elem_of_cons in H as [->|H]; [split; [left|exact Hfa]|].
    destruct (IH H). split; [right|]; auto.
  - destruct (IH H). split; [right|]; auto.
Qed.

Lemma flow_table_app l1 l2 :
  flow_table (l1 ++ l2) = fold_left apply_message l2 (flow_table l1).
Proof. unfold flow_table. apply fold_left_app. Qed.

(** A strict delete built for a compiled rule has the key of the rule. *)
Lemma same_entry_delete_mod e m :
  compiled_ok m →
  same_entry e (entry_of (id (fm_datapath m)) (delete_mod m))
  = same_entry e (entry_of (id (fm_datapath m)) m).
Proof.
  intros (i & o & _ & _ & _ & _ & _ & Hp).
  unfold same_entry, entry_of. simpl. rewrite Hp. reflexivity.
Qed.

(** Installs leave alone the entries they do not replace and add entries
    of the rules installed. *)
Lemma installs_fold : ∀ ms T R,
  Forall compiled_ok ms →
  (∀ e m, e ∈ T → m ∈ ms →
          same_entry e (entry_of (id (fm_datapath m)) m) = false) →
  ∃ R',
    fold_left apply_message (map install_of ms) (T ++ R) = T ++ R' ∧
    ∀ e, e ∈ R' →
         e ∈ R ∨ ∃ m, m ∈ ms ∧ e = entry_of (id (fm_datapath m)) m.
Proof.
  induction ms as [|m ms IH]; intros T R Hok Hfresh.
  - exists R. simpl. auto.
  - apply Forall_cons in Hok as [Hm Hok].
    destruct Hm as (i & o & _ & _ & _ & _ & Hc & _).
    simpl. rewrite Hc. rewrite List.filter_app.
    rewrite filter_keep.
    2:{ intros e He. rewrite (Hfresh e m He) by left. reflexivity. }
    rewrite <- app_assoc.
    destruct (IH T (List.filter
                      (λ e', negb (same_entry e'
                                     (entry_of (id (fm_datapath m)) m))) R
                    ++ [entry_of (id (fm_datapath m)) m]) Hok)
      as (R' & Hrun & HR').
    { intros e m' He Hm'. apply Hfresh; [exact He|right; exact Hm']. }
    exists R'. split; [exact Hrun|].
    intros e He. destruct (HR' e He) as [Hin|(m' & Hm' & ->)].
    + apply elem_of_app in Hin as [Hin|Hin].
      * left. apply elem_of_bool_filter in Hin as [Hin _]. exact Hin.
      * apply list_elem_of_singleton in Hin as ->.
        right. exists m. split; [left|reflexivity].
    + right. exists m'. split; [right; exact Hm'|reflexivity].
Qed.

(** Strict deletes leave alone the entries of other keys and remove the
    entries of theirs. *)
Lemma deletes_fold : ∀ ms T R,
  Forall compiled_ok ms →
  (∀ e m, e ∈ T → m ∈ ms →
          same_entry e (entry_of (id (fm_datapath m)) m) = false) →
  ∃ R',
    fold_left apply_message (map delete_of ms) (T ++ R) = T ++ R' ∧
    ∀ e, e ∈ R' →
         e ∈ R ∧
         ∀ m, m ∈ ms → same_entry e (entry_of (id (fm_datapath m)) m) = false.
Proof.
  induction ms as [|m ms IH]; intros T R Hok Hfresh.
  - exists R. simpl. split; [reflexivity|]. intros e He. split; [exact He|].
    intros m Hm. inversion Hm.
  - apply Forall_cons in Hok as [Hm Hok].
    simpl. rewrite List.filter_app.
    rewrite filter_keep.
    2:{ intros e He. rewrite same_entry_delete_mod by exact Hm.
        rewrite (Hfresh e m He) by left. reflexivity. }
    destruct (IH T (List.filter
                      (λ e', negb (same_entry e'
                                     (entry_of (id (fm_datapath m))
                                        (delete_mod m)))) R) Hok)
      as (R' & Hrun & HR').
    { intros e m' He Hm'. apply Hfresh; [exact He|right; exact Hm']. }
    exists R'. split; [exact Hrun|].
    intros e He. destruct (HR' e He) as [Hin Hrest].
    apply elem_of_bool_filter in Hin as [Hin Hf].
    rewrite same_entry_delete_mod in Hf by exact Hm.
    split; [exact Hin|].
    intros m' Hm'. apply elem_of_cons in Hm' as [->|Hm']; [|auto].
    destruct (same_entry e _); [discriminate|reflexivity].
Qed.

(** Installing compiled rules and then deleting them restores a table
    that held no entry with the switch, match and priority of one of
    them. *)
Lemma table_restored ms log :
  Forall compiled_ok ms →
  (∀ e m, e ∈ flow_table log → m ∈ ms →
          same_entry e (entry_of (id (fm_datapath m)) m) = false) →
  flow_table ((log ++ map install_of ms) ++ map delete_of ms)
  = flow_table log.
Proof.
  intros Hok Hfresh. rewrite !flow_table_app.
  destruct (installs_fold ms (flow_table log) [] Hok Hfresh)
    as (R1 & Hrun1 & HR1).
  rewrite app_nil_r in Hrun1. rewrite Hrun1.
  destruct (deletes_fold ms (flow_table log) R1 Hok Hfresh)
    as (R2 & Hrun2 & HR2).
  rewrite Hrun2.
  assert (Hnil : R2 = []).
  { apply elem_of_nil_inv. intros e He. destruct (HR2 e He) as [Hin Hno].
    destruct (HR1 e Hin) as [Hin'|(m & Hm & ->)]; [inversion Hin'|].
    specialize (Hno m Hm). rewrite same_entry_refl in Hno. discriminate. }
  rewrite Hnil. apply app_nil_r.
Qed.

(** * The claims of the specification *)

(** ** Shortest-path tree *)

(** C1 (as stated, refuted): on the snapshot with switches 1, 2, 3, 4 and
    links 1->2, 2->3, 3->4, 1->4, target 1, dijkstra returns the distances
    0, 1, 2, 1; they decrease from switch 3 to switch 4 along the simple
    path 1, 2, 3, 4, so distances are not non-decreasing along every simple
    path from the target. *)
Lemma dijkstra_not_monotone_on_simple_paths :
  dijkstra [1; 2; 3; 4]
    [Edge 1 2 1; Edge 2 3 1; Edge 3 4 1; Edge 1 4 2] 1
  = Ok ([(1, Fin 0); (2, Fin 1); (3, Fin 2); (4, Fin 1)],
        [(1, None); (2, Some (1, 1)); (3, Some (2, 1)); (4, Some (1, 2))]) ∧
  ¬ monotone_on_simple_paths
      [Edge 1 2 1; Edge 2 3 1; Edge 3 4 1; Edge 1 4 2] 1
      [(1, Fin 0); (2, Fin 1); (3, Fin 2); (4, Fin 1)].
Proof.
  split; [vm_compute; reflexivity|].
  intros Hmono.
  specialize (Hmono [Edge 1 2 1; Edge 2 3 1; Edge 3 4 1]).
  assert (Hsimple : simple_path
            [Edge 1 2 1; Edge 2 3 1; Edge 3 4 1; Edge 1 4 2] 1
            [Edge 1 2 1; Edge 2 3 1; Edge 3 4 1]).
  { split.
    - exists 4. simpl. repeat split; elem_of_list.
    - apply (bool_decide_unpack _). vm_compute. exact I. }
  specialize (Hmono Hsimple 2%nat 3 4 (Fin 2) (Fin 1)
                eq_refl eq_refl eq_refl eq_refl).
  simpl in Hmono. lia.
Qed.

(** C1 (amended): for every snapshot and every target present in it,
    when the links that leave a switch of the snapshot arrive at switches
    of the snapshot, dijkstra returns a distance map with distance 0 for
    the target and, for every switch v, the least number of links of a
    directed path from the target to v (the unreachable sentinel when
    there is none); along a link the distance grows by one at most, and
    along a shortest path the i-th switch has distance i, so the distances
    do not decrease along shortest paths.  When a link leaves a switch of
    the snapshot for a switch outside of it, dijkstra raises KeyError. *)
Theorem dijkstra_shortest_distances vertices edges source :
  source ∈ vertices →
  (links_closed vertices edges →
   ∃ dist prev,
     dijkstra vertices edges source = Ok (dist, prev) ∧
     shortest_distances vertices edges source dist ∧
     one_hop_per_link vertices edges dist ∧
     counts_hops_on_shortest_walks edges source dist ∧
     (∀ p v, walk edges source p v →
             Dict.get dist v = Some (Fin (length p)) →
             nondecreasing_along dist source p)) ∧
  ((∃ e, e ∈ edges ∧ src e ∈ vertices ∧ dst e ∉ vertices) →
   dijkstra vertices edges source = Raise KeyError).
Proof.
  intros Hs. split; [|apply dijkstra_dangling; exact Hs].
  intros Hclosed.
  destruct (dijkstra_returns vertices edges source Hs Hclosed)
    as (dist & prev & Hrun & Hinv).
  exists dist, prev. split; [exact Hrun|].
  pose proof (final_counts_hops vertices edges source dist prev Hinv)
    as Hcount.
  repeat split.
  - apply (inv_source _ _ _ _ _ _ Hinv).
  - apply (final_shortest vertices edges source dist prev Hinv).
  - apply (final_one_hop vertices edges source dist prev Hinv).
  - exact Hcount.
  - intros p v Hp Hv i a b da db Ha Hb Hda Hdb.
    rewrite (Hcount p v Hp Hv i a Ha) in Hda.
    rewrite (Hcount p v Hp Hv (S i) b Hb) in Hdb.
    injection Hda as <-. injection Hdb as <-. simpl. lia.
Qed.

(** The snapshot of the refutation has its target and closed links; with
    the link 4->9 added it has a link that leaves it. *)
Lemma dijkstra_shortest_distances_witness :
  (∃ dist prev,
     dijkstra [1; 2; 3; 4]
       [Edge 1 2 1; Edge 2 3 1; Edge 3 4 1; Edge 1 4 2] 1 = Ok (dist, prev) ∧
     shortest_distances [1; 2; 3; 4]
       [Edge 1 2 1; Edge 2 3 1; Edge 3 4 1; Edge 1 4 2] 1 dist ∧
     one_hop_per_link [1; 2; 3; 4]
       [Edge 1 2 1; Edge 2 3 1; Edge 3 4 1; Edge 1 4 2] dist ∧
     counts_hops_on_shortest_walks
       [Edge 1 2 1; Edge 2 3 1; Edge 3 4 1; Edge 1 4 2] 1 dist ∧
     (∀ p v, walk [Edge 1 2 1; Edge 2 3 1; Edge 3 4 1; Edge 1 4 2] 1 p v →
             Dict.get dist v = Some (Fin (length p)) →
             nondecreasing_along dist 1 p)) ∧
  dijkstra [1; 2; 3; 4] [Edge 1 2 1; Edge 4 9 1] 1 = Raise KeyError.
Proof.
  split.
  - apply (dijkstra_shortest_distances [1; 2; 3; 4]
             [Edge 1 2 1; Edge 2 3 1; Edge 3 4 1; Edge 1 4 2] 1).
    + elem_of_list.
    + links_closed_tac.
  - apply (dijkstra_shortest_distances [1; 2; 3; 4]
             [Edge 1 2 1; Edge 4 9 1] 1).
    + elem_of_list.
    + exists (Edge 4 9 1). split; [elem_of_list|]. split; [simpl; elem_of_list|].
      apply (bool_decide_unpack _). vm_compute. exact I.
Defined.

(** ** Rule compilation *)

(** C2 (the code departs from the claim): on a snapshot with the target
    switch 1 and a switch 2 that no link reaches, the compilation emits the
    rule of switch 1 twice, once for switch 1 and once more for the
    unreachable switch 2; without switch 2 in the snapshot it emits it
    once.  The unreachable switch is not excluded: it contributes a copy
    of the rules of the target. *)
Lemma compile_counts_unreachable_switch :
  (_compile_rule 0%nat (snapshot [switch1; switch2] [] (intent_to 1))).1
    = Ok () ∧
  flow_mods <$>
    heap (_compile_rule 0%nat
            (snapshot [switch1; switch2] [] (intent_to 1))).2 !! 0%nat
    = Some [rule_1_2; rule_1_2] ∧
  flow_mods <$>
    heap (_compile_rule 0%nat (snapshot [switch1] [] (intent_to 1))).2 !! 0%nat
    = Some [rule_1_2].
Proof. vm_compute. repeat split; reflexivity. Qed.

(** C7: every rule emitted by a compilation forwards to a port other than
    the ingress port its match forces, and that ingress port is never the
    reserved port 65534. *)
Theorem compile_ingress_differs_from_output rule s r out s' :
  heap s !! rule = Some r →
  _compile_rule rule s = (out, s') →
  ∃ r' new,
    heap s' !! rule = Some r' ∧ flow_mods r' = flow_mods r ++ new ∧
    Forall (λ m, ∃ in_port out_port,
              Dict.get (match_fields (fm_match m)) "in_port"
                = Some (PInt in_port) ∧
              fm_actions m = Some [OFPActionOutput out_port] ∧
              in_port ≠ out_port ∧ in_port ≠ 65534) new.
Proof.
  intros H Hrun.
  destruct (_compile_rule_run rule s r H)
    as (out' & r' & new & Hrun' & Hc & _).
  rewrite Hrun in Hrun'. injection Hrun' as -> ->.
  exists r', new. split; [apply heap_store_rule|].
  destruct Hc as (_ & _ & _ & Hf & _ & Hok). split; [exact Hf|].
  eapply Forall_impl; [exact Hok|].
  intros m (i & o & H1 & H2 & H3 & H4 & _). exists i, o. auto.
Qed.

(** Two linked switches, intent towards switch 1. *)
Lemma compile_ingress_differs_from_output_witness :
  ∃ r' new,
    heap (_compile_rule 0%nat
            (snapshot [switch1; switch2] [link12; link21] (intent_to 1))).2
      !! 0%nat = Some r' ∧
    flow_mods r' = flow_mods (intent_to 1) ++ new ∧
    Forall (λ m, ∃ in_port out_port,
              Dict.get (match_fields (fm_match m)) "in_port"
                = Some (PInt in_port) ∧
              fm_actions m = Some [OFPActionOutput out_port] ∧
              in_port ≠ out_port ∧ in_port ≠ 65534) new.
Proof.
  apply (compile_ingress_differs_from_output 0%nat
           (snapshot [switch1; switch2] [link12; link21] (intent_to 1))
           (intent_to 1)
           (_compile_rule 0%nat
              (snapshot [switch1; switch2] [link12; link21] (intent_to 1))).1).
  - reflexivity.
  - apply surjective_pairing.
Defined.

(** C8 (as stated, refuted): compiling the intent towards switch 1 on the
    snapshot made of switch 1 alone changes the intent: its compiled rule
    set, empty before, holds a rule afterwards. *)
Lemma compile_mutates_intent :
  (_compile_rule 0%nat (snapshot [switch1] [] (intent_to 1))).1 = Ok () ∧
  flow_mods <$> heap (snapshot [switch1] [] (intent_to 1)) !! 0%nat
    = Some [] ∧
  flow_mods <$>
    heap (_compile_rule 0%nat (snapshot [switch1] [] (intent_to 1))).2 !! 0%nat
    = Some [rule_1_2] ∧
  (_compile_rule 0%nat (snapshot [switch1] [] (intent_to 1))).2
    ≠ snapshot [switch1] [] (intent_to 1).
Proof.
  repeat split; try (vm_compute; reflexivity).
  intros Heq.
  assert (Hf : flow_mods <$>
            heap (_compile_rule 0%nat (snapshot [switch1] [] (intent_to 1))).2
              !! 0%nat = Some []).
  { rewrite Heq. vm_compute. reflexivity. }
  vm_compute in Hf. discriminate.
Qed.

(** C8 (amended): a compilation returns nothing and has one effect, on the
    intent it is given: it appends the rules it emits to the compiled rule
    set of the intent.  The topology, the registry, the MAC table, the
    messages sent and every other intent are left as they were, as are the
    uuid and the target of the intent, and its match predicate when that
    names no ingress port. *)
Theorem compile_only_extends_rule_set rule s r :
  heap s !! rule = Some r →
  ∃ out s' r' new,
    _compile_rule rule s = (out, s') ∧
    same_but_rule rule s s' ∧
    heap s' !! rule = Some r' ∧
    uuid r' = uuid r ∧ ttp_dpid r' = ttp_dpid r ∧ ttp_port r' = ttp_port r ∧
    flow_mods r' = flow_mods r ++ new ∧
    ("in_port" ∉ Dict.keys (match_ r) → match_ r' = match_ r).
Proof.
  intros H.
  destruct (_compile_rule_run rule s r H)
    as (out & r' & new & Hrun & Hc & _).
  exists out, (store_rule rule r' s), r', new.
  split; [exact Hrun|]. split; [apply same_but_rule_store|].
  split; [apply heap_store_rule|].
  destruct Hc as (H1 & H2 & H3 & H4 & H5 & _). auto.
Qed.

(** Two linked switches, intent towards switch 1. *)
Lemma compile_only_extends_rule_set_witness :
  ∃ out s' r' new,
    _compile_rule 0%nat (snapshot [switch1; switch2] [link12; link21]
                           (intent_to 1)) = (out, s') ∧
    same_but_rule 0%nat
      (snapshot [switch1; switch2] [link12; link21] (intent_to 1)) s' ∧
    heap s' !! 0%nat = Some r' ∧
    uuid r' = uuid (intent_to 1) ∧ ttp_dpid r' = ttp_dpid (intent_to 1) ∧
    ttp_port r' = ttp_port (intent_to 1) ∧
    flow_mods r' = flow_mods (intent_to 1) ++ new ∧
    ("in_port" ∉ Dict.keys (match_ (intent_to 1)) →
     match_ r' = match_ (intent_to 1)).
Proof.
  apply (compile_only_extends_rule_set 0%nat
           (snapshot [switch1; switch2] [link12; link21] (intent_to 1))
           (intent_to 1)).
  reflexivity.
Defined.

(** ** Intent registry *)

(** C3: when the target switch of an intent is absent from the snapshot,
    [add_rule] fails with the ValueError of dijkstra (the InvalidTarget of
    the specification) and leaves the whole state as it was: no rule is
    compiled, nothing is sent and the registry does not store the
    intent. *)
Theorem add_rule_invalid_target rule s r :
  heap s !! rule = Some r →
  ttp_dpid r ∉ snapshot_switches s →
  add_rule rule s = (Raise ValueError, s).
Proof.
  intros H Ht.
  destruct (_compile_rule_run rule s r H)
    as (out & r' & new & Hrun & _ & _ & _ & Hbad).
  destruct (Hbad Ht) as [-> ->].
  rewrite (add_rule_run _ _ _ _ Hrun). rewrite store_rule_id by exact H.
  reflexivity.
Qed.

(** An intent towards switch 9 on a snapshot of switches 1 and 2. *)
Lemma add_rule_invalid_target_witness :
  add_rule 0%nat (snapshot [switch1; switch2] [link12; link21] (intent_to 9))
  = (Raise ValueError,
     snapshot [switch1; switch2] [link12; link21] (intent_to 9)).
Proof.
  apply (add_rule_invalid_target 0%nat
           (snapshot [switch1; switch2] [link12; link21] (intent_to 9))
           (intent_to 9)).
  - reflexivity.
  - apply (bool_decide_unpack _). vm_compute. exact I.
Defined.

(** C4 (as stated, refuted): two intents with the same match and target,
    under the uuids 77 and 79, are added one after the other, and the
    second is removed.  Before the second add the tables held the three
    rules of the first intent; the second add replaces them by its own,
    the remove deletes those, and the tables end up empty while the
    registry still holds the first intent: the switch-side state has not
    returned to its contents before the add. *)
Lemma remove_after_twin_add_empties_table :
  (add_rule 0%nat two_twins).1 = Ok () ∧
  (add_rule 1%nat (add_rule 0%nat two_twins).2).1 = Ok () ∧
  (remove_rule (Some (uuid intent_twin))
     (add_rule 1%nat (add_rule 0%nat two_twins).2).2).1 = Ok () ∧
  length (flow_table (sent (add_rule 0%nat two_twins).2)) = 3%nat ∧
  flow_table
    (sent (remove_rule (Some (uuid intent_twin))
             (add_rule 1%nat (add_rule 0%nat two_twins).2).2).2) = [] ∧
  flow_table
    (sent (remove_rule (Some (uuid intent_twin))
             (add_rule 1%nat (add_rule 0%nat two_twins).2).2).2)
  ≠ flow_table (sent (add_rule 0%nat two_twins).2).
Proof.
  assert (H3 : length (flow_table (sent (add_rule 0%nat two_twins).2))
               = 3%nat) by (vm_compute; reflexivity).
  assert (H0 : flow_table
                 (sent (remove_rule (Some (uuid intent_twin))
                          (add_rule 1%nat (add_rule 0%nat two_twins).2).2).2)
               = []) by (vm_compute; reflexivity).
  repeat split; try (vm_compute; reflexivity); try assumption.
  intros Heq. rewrite H0 in Heq. rewrite <- Heq in H3. discriminate.
Qed.

(** C4 (amended): after an intent has been stored by [add_rule],
    [remove_rule] on its uuid sends one strict delete for each install
    that [add_rule] sent, in the same order, to the same switch, with the
    same match and the same priority, and takes the uuid out of the
    registry; a registry that did not hold the uuid before the add is back
    to what it was.  The forwarding tables are back to their contents
    before the add when they held, before the add, no entry with the
    switch, match and priority of one of the rules installed. *)
Theorem add_then_remove rule s r s1 :
  heap s !! rule = Some r →
  Forall compiled_ok (flow_mods r) →
  add_rule rule s = (Ok (), s1) →
  ∃ installs deletes s2,
    sent s1 = sent s ++ installs ∧
    remove_rule (Some (uuid r)) s1 = (Ok (), s2) ∧
    sent s2 = sent s1 ++ deletes ∧
    Forall2 matching_delete installs deletes ∧
    Dict.del (rules s1) (uuid r) = Some (rules s2) ∧
    (uuid r ∉ Dict.keys (rules s) → rules s2 = rules s) ∧
    ((∀ e m, e ∈ flow_table (sent s) → install_of m ∈ installs →
             same_entry e (entry_of (id (fm_datapath m)) m) = false) →
     flow_table (sent s2) = flow_table (sent s)).
Proof.
  intros H Hwf Hadd.
  destruct (_compile_rule_run rule s r H)
    as (out & r' & new & Hrun & Hc & _).
  rewrite (add_rule_run _ _ _ _ Hrun) in Hadd.
  destruct out as [[]|e|]; try discriminate.
  injection Hadd as <-.
  destruct Hc as (Hu & _ & _ & Hf & _ & Hok).
  assert (Hall : Forall compiled_ok (flow_mods r')).
  { rewrite Hf. apply Forall_app. auto. }
  set (s1 := set_rules _ _).
  assert (Hget : Dict.get (rules s1) (uuid r) = Some rule).
  { unfold s1. simpl. rewrite Hu. apply get_set_eq. }
  assert (Hheap : heap s1 !! rule = Some r').
  { unfold s1. simpl. apply lookup_insert_eq. }
  destruct (Dict.del (rules s1) (uuid r)) as [rs|] eqn:Hdel.
  2:{ apply del_None in Hdel. exfalso. apply Hdel.
      eapply get_Some_keys. exact Hget. }
  exists (map install_of (flow_mods r')), (map delete_of (flow_mods r')).
  exists (set_rules rs (set_sent (sent s1 ++ map delete_of (flow_mods r')) s1)).
  split; [reflexivity|]. split.
  { apply (remove_rule_run _ _ _ _ _ Hget Hheap Hdel). }
  split; [reflexivity|]. split; [apply matching_delete_compiled; exact Hall|].
  split; [reflexivity|]. split.
  - intros Hfresh. simpl. unfold s1 in Hdel. simpl in Hdel.
    rewrite Hu in Hdel. rewrite del_set_fresh in Hdel by exact Hfresh.
    congruence.
  - intros Hfresh. simpl. apply table_restored; [exact Hall|].
    intros e0 m He0 Hm. apply Hfresh; [exact He0|].
    apply list_elem_of_fmap_2. exact Hm.
Qed.

(** Two linked switches, intent towards switch 1, added then removed. *)
Lemma add_then_remove_witness :
  ∃ installs deletes s2,
    sent (add_rule 0%nat (snapshot [switch1; switch2] [link12; link21]
                            (intent_to 1))).2
      = sent (snapshot [switch1; switch2] [link12; link21] (intent_to 1))
        ++ installs ∧
    remove_rule (Some (uuid (intent_to 1)))
      (add_rule 0%nat (snapshot [switch1; switch2] [link12; link21]
                         (intent_to 1))).2 = (Ok (), s2) ∧
    sent s2
      = sent (add_rule 0%nat (snapshot [switch1; switch2] [link12; link21]
                                (intent_to 1))).2 ++ deletes ∧
    Forall2 matching_delete installs deletes ∧
    Dict.del
      (rules (add_rule 0%nat (snapshot [switch1; switch2] [link12; link21]
                                (intent_to 1))).2) (uuid (intent_to 1))
      = Some (rules s2) ∧
    (uuid (intent_to 1)
       ∉ Dict.keys (rules (snapshot [switch1; switch2] [link12; link21]
                             (intent_to 1))) →
     rules s2
       = rules (snapshot [switch1; switch2] [link12; link21] (intent_to 1))) ∧
    ((∀ e m,
        e ∈ flow_table
              (sent (snapshot [switch1; switch2] [link12; link21]
                       (intent_to 1))) →
        install_of m ∈ installs →
        same_entry e (entry_of (id (fm_datapath m)) m) = false) →
     flow_table (sent s2)
     = flow_table
         (sent (snapshot [switch1; switch2] [link12; link21] (intent_to 1)))).
Proof.
  apply (add_then_remove 0%nat
           (snapshot [switch1; switch2] [link12; link21] (intent_to 1))
           (intent_to 1)).
  - reflexivity.
  - apply Forall_nil. exact I.
  - vm_compute. reflexivity.
Defined.

(** C6: [remove_rule] on a uuid that the registry does not hold fails with
    KeyError (the NotFound of the specification) and leaves the whole state
    as it was; so does [update_rule], whose first step it is: no entry is
    modified and nothing is sent. *)
Theorem remove_rule_unknown_uuid u s :
  u ∉ Dict.keys (rules s) →
  remove_rule (Some u) s = (Raise KeyError, s) ∧
  ∀ rule, update_rule (Some u) rule s = (Raise KeyError, s).
Proof.
  intros Hu. apply get_None_keys in Hu.
  assert (Hrem : remove_rule (Some u) s = (Raise KeyError, s)).
  { unfold remove_rule.
    erewrite bind_raise by (apply _remove_reverse_path_unknown; exact Hu).
    reflexivity. }
  split; [exact Hrem|].
  intros rule. unfold update_rule. erewrite bind_raise by exact Hrem.
  reflexivity.
Qed.

(** The registry holds uuid 77 only; uuid 5 is removed. *)
Lemma remove_rule_unknown_uuid_witness :
  remove_rule (Some 5)
    (add_rule 0%nat (snapshot [switch1; switch2] [link12; link21]
                       (intent_to 1))).2
  = (Raise KeyError,
     (add_rule 0%nat (snapshot [switch1; switch2] [link12; link21]
                        (intent_to 1))).2) ∧
  ∀ rule,
    update_rule (Some 5) rule
      (add_rule 0%nat (snapshot [switch1; switch2] [link12; link21]
                         (intent_to 1))).2
    = (Raise KeyError,
       (add_rule 0%nat (snapshot [switch1; switch2] [link12; link21]
                          (intent_to 1))).2).
Proof.
  apply (remove_rule_unknown_uuid 5
           (add_rule 0%nat (snapshot [switch1; switch2] [link12; link21]
                              (intent_to 1))).2).
  apply (bool_decide_unpack _). vm_compute. exact I.
Defined.




(** ** Learning switch *)

(** C9: a frame whose ethertype is LLDP or IPv6, or whose destination
    address has the low bit of its first octet set, makes the handler
    return at once: the state is left as it was, so no message (and no
    install in particular) is sent to any switch. *)
Theorem dropped_frame_installs_nothing ev s :
  dropped ev →
  _packet_in_handler ev s = (Ok (), s) ∧
  sent (_packet_in_handler ev s).2 = sent s.
Proof.
  intros Hdrop.
  assert (Hrun : _packet_in_handler ev s = (Ok (), s)).
  { unfold _packet_in_handler.
    destruct (decide (ethertype (msg_eth ev) = ETH_TYPE_LLDP)); [reflexivity|].
    destruct (decide (ethertype (msg_eth ev) = ETH_TYPE_IPV6)); [reflexivity|].
    destruct Hdrop as [Hl|[Hi|(octet & Hoct & Hbit)]]; try contradiction.
    erewrite bind_ok by (unfold lift; rewrite Hoct; reflexivity).
    rewrite decide_True by exact Hbit. reflexivity. }
  rewrite Hrun. auto.
Qed.

(** An IPv4 frame to the multicast address 01:00:5e:00:00:01. *)
Lemma dropped_frame_installs_nothing_witness :
  _packet_in_handler (frame 0x0800 "01:00:5e:00:00:01")
    (snapshot [switch1] [] (intent_to 1))
  = (Ok (), snapshot [switch1] [] (intent_to 1)) ∧
  sent (_packet_in_handler (frame 0x0800 "01:00:5e:00:00:01")
          (snapshot [switch1] [] (intent_to 1))).2
  = sent (snapshot [switch1] [] (intent_to 1)).
Proof.
  apply (dropped_frame_installs_nothing (frame 0x0800 "01:00:5e:00:00:01")
           (snapshot [switch1] [] (intent_to 1))).
  right. right. exists 1. split; [reflexivity|]. vm_compute. discriminate.
Defined.

(** C5 (as stated, refuted): an LLDP frame from 00:00:00:00:00:0a received
    by switch 1 on port 3 is handled without error and leaves the MAC table
    empty: the source address is not learned. *)
Lemma lldp_frame_is_not_learned :
  (_packet_in_handler (frame ETH_TYPE_LLDP "00:00:00:00:00:0b")
     (snapshot [switch1] [] (intent_to 1))).1 = Ok () ∧
  ¬ learned (frame ETH_TYPE_LLDP "00:00:00:00:00:0b")
      (_packet_in_handler (frame ETH_TYPE_LLDP "00:00:00:00:00:0b")
         (snapshot [switch1] [] (intent_to 1))).2.
Proof.
  split; [reflexivity|].
  intros (table & Htable & _). vm_compute in Htable. discriminate.
Qed.

(** C5 (amended): for every decoded frame that the handler does not drop
    on entry (ethertype neither LLDP nor IPv6, low bit of the first octet
    of the destination address clear), the handler returns with
    MacTable[switch][sourceMAC] = ingressPort recorded. *)
Theorem handled_frame_is_learned ev s :
  handled ev →
  ∃ s', _packet_in_handler ev s = (Ok (), s') ∧ learned ev s'.
Proof.
  intros (Hl & Hi & octet & Hoct & Hbit).
  unfold _packet_in_handler.
  rewrite decide_False by exact Hl. rewrite decide_False by exact Hi.
  erewrite bind_ok by (unfold lift; rewrite Hoct; reflexivity).
  rewrite decide_False by (intros Hb; apply Hb; exact Hbit).
  unfold mbind, M_bind, modify, gets, _add_flow, send_msg, modify, mret, M_ret.
  destruct (mac_to_port s !! id (msg_datapath ev)) as [table|] eqn:Htable;
    simpl; rewrite ?Htable; simpl; rewrite lookup_insert_eq; simpl;
    match goal with
    | |- context [decide (?p ≠ OFPP_FLOOD)] =>
        destruct (decide (p ≠ OFPP_FLOOD))
    end;
    simpl; (eexists; split; [reflexivity|]);
    unfold learned; simpl; rewrite lookup_insert_eq;
    (eexists; split; [reflexivity|]); apply lookup_insert_eq.
Qed.

(** An IPv4 frame to the unicast address 00:00:00:00:00:0b. *)
Lemma handled_frame_is_learned_witness :
  ∃ s', _packet_in_handler (frame 0x0800 "00:00:00:00:00:0b")
          (snapshot [switch1] [] (intent_to 1)) = (Ok (), s') ∧
        learned (frame 0x0800 "00:00:00:00:00:0b") s'.
Proof.
  apply (handled_frame_is_learned (frame 0x0800 "00:00:00:00:00:0b")
           (snapshot [switch1] [] (intent_to 1))).
  split; [vm_compute; discriminate|]. split; [vm_compute; discriminate|].
  exists 0. split; reflexivity.
Defined.

(** * Further properties of the code *)

(** ** dijkstra: outcomes *)

Lemma closed_or_dangling vertices : ∀ edges,
  links_closed vertices edges ∨ dangling_link vertices edges.
Proof.
  unfold dangling_link. induction edges as [|e edges IH].
  - left. intros e He. inversion He.
  - destruct IH as [Hc|(e' & He' & Hs & Hd)].
    + destruct (decide (src e ∈ vertices)) as [Hs|Hs].
      * destruct (decide (dst e ∈ vertices)) as [Hd|Hd].
        -- left. intros e' He' Hs'.
           apply elem_of_cons in He' as [->|He']; auto.
        -- right. exists e. split; [left|auto].
      * left. intros e' He' Hs'.
        apply elem_of_cons in He' as [->|He']; [contradiction|auto].
    + right. exists e'. split; [right; exact He'|auto].
Qed.

Lemma closed_not_dangling vertices edges :
  links_closed vertices edges → ¬ dangling_link vertices edges.
Proof.
  unfold dangling_link. intros Hc (e & He & Hs & Hd). apply Hd.
  apply Hc; auto.
Qed.

(** X1: dijkstra raises ValueError exactly when the source is not among
    the vertices, raises KeyError exactly when the source is among them and
    a link leaves a vertex for a switch that is not a vertex, and returns
    the two maps exactly when the source is a vertex and no link does so.
    It has no other outcome. *)
Theorem dijkstra_outcome vertices edges source :
  (dijkstra vertices edges source = Raise ValueError ↔ source ∉ vertices) ∧
  (dijkstra vertices edges source = Raise KeyError ↔
   source ∈ vertices ∧ dangling_link vertices edges) ∧
  ((∃ dist prev, dijkstra vertices edges source = Ok (dist, prev)) ↔
   source ∈ vertices ∧ links_closed vertices edges).
Proof.
  assert (Hbad : source ∉ vertices →
                 dijkstra vertices edges source = Raise ValueError).
  { intros Hs. unfold dijkstra. rewrite decide_False by exact Hs. reflexivity. }
  destruct (decide (source ∈ vertices)) as [Hs|Hs].
  - destruct (closed_or_dangling vertices edges) as [Hc|Hd].
    + destruct (dijkstra_returns _ _ _ Hs Hc) as (dist & prev & Hrun & _).
      rewrite Hrun. split; [|split].
      * split; [discriminate|contradiction].
      * split; [discriminate|].
        intros [_ Hd]. exfalso. eapply closed_not_dangling; eauto.
      * split; [auto|]. intros _. eauto.
    + rewrite (dijkstra_dangling _ _ _ Hs Hd). split; [|split].
      * split; [discriminate|contradiction].
      * split; auto.
      * split; [intros (dist & prev & Heq); discriminate|].
        intros [_ Hc]. exfalso. eapply closed_not_dangling; eauto.
  - rewrite (Hbad Hs). split; [|split].
    + split; auto.
    + split; [discriminate|]. intros [Hs' _]. contradiction.
    + split; [intros (dist & prev & Heq); discriminate|].
      intros [Hs' _]. contradiction.
Qed.

(** ** dijkstra: the predecessor map *)

Lemma num_ltb_succ_irrefl a : num_ltb (num_succ a) a = false.
Proof. num_solve. Qed.

Lemma num_ltb_irrefl a : num_ltb a a = false.
Proof. num_solve. Qed.

Lemma relax_all_prev u du : ∀ neighbors dist prev dist' prev',
  Dict.get dist u = Some du →
  relax_all u neighbors (dist, prev) = Ok (dist', prev') →
  relaxed_to u du neighbors dist prev dist' prev'.
Proof.
  induction neighbors as [|e rest IH]; intros dist prev dist' prev' Hu Hrun.
  - simpl in Hrun. injection Hrun as <- <-. intros x. left. auto.
  - simpl in Hrun. rewrite Hu in Hrun.
    destruct (Dict.get dist (dst e)) as [dv|] eqn:Hdv; [|discriminate].
    destruct (num_ltb (num_succ du) dv) eqn:Hlt.
    + assert (Hne : dst e ≠ u).
      { intros Heq. rewrite Heq, Hu in Hdv. injection Hdv as <-.
        rewrite num_ltb_succ_irrefl in Hlt. discriminate. }
      specialize (IH _ _ _ _ (eq_trans (get_set_ne _ _ _ _ Hne) Hu) Hrun).
      intros x. destruct (IH x) as [[Hd Hp]|(e' & dx & He' & Hx & Hdx & Hl & Hd & Hp)].
      * destruct (decide (dst e = x)) as [<-|Hex].
        -- right. exists e, dv. rewrite get_set_eq in Hd.
           rewrite get_set_eq in Hp.
           repeat split; auto. left.
        -- left. rewrite get_set_ne in Hd by exact Hex.
           rewrite get_set_ne in Hp by exact Hex. auto.
      * destruct (decide (dst e = x)) as [<-|Hex].
        -- rewrite get_set_eq in Hdx. injection Hdx as <-.
           rewrite num_ltb_irrefl in Hl. discriminate.
        -- rewrite get_set_ne in Hdx by exact Hex.
           right. exists e', dx. repeat split; auto. right. exact He'.
    + specialize (IH _ _ _ _ Hu Hrun).
      intros x. destruct (IH x) as [H|(e' & dx & He' & H)]; [left; exact H|].
      right. exists e', dx. split; [right; exact He'|exact H].
Qed.

Lemma py_min_least (dist : list (Z * num)) (unvisited : list Z) u :
  NoDup (Dict.keys dist) →
  py_min (filter (λ kv, kv.1 ∈ unvisited) dist) = Ok u →
  u ∈ unvisited ∧
  ∃ du, Dict.get dist u = Some du ∧
        ∀ w dw, w ∈ unvisited → Dict.get dist w = Some dw → num_le du dw.
Proof.
  intros Hnd Hmin.
  destruct (py_min_spec (filter (λ kv, kv.1 ∈ unvisited) dist))
    as (u' & du & Hmin' & Hin & Hleast).
  { intros Hnil. rewrite Hnil in Hmin. discriminate. }
  rewrite Hmin in Hmin'. injection Hmin' as <-.
  apply list_elem_of_filter in Hin as [Hu Hd]. simpl in Hu.
  split; [exact Hu|]. exists du. split; [apply elem_of_get; auto|].
  intros w dw Hw Hdw. apply (Hleast w dw).
  apply list_elem_of_filter. split; [exact Hw|]. apply get_elem_of. exact Hdw.
Qed.

Lemma prev_inv_step edges source dist prev (unvisited : list Z) u
    unvisited' dist' prev' :
  NoDup (Dict.keys dist) →
  Dict.get dist source = Some (Fin 0) →
  prev_inv edges source dist prev unvisited →
  py_min (filter (λ kv, kv.1 ∈ unvisited) dist) = Ok u →
  list_remove u unvisited = Ok unvisited' →
  relax_all u (filter (λ x, src x = u) edges) (dist, prev)
    = Ok (dist', prev') →
  prev_inv edges source dist' prev' unvisited'.
Proof.
  intros Hnd Hsrc [Hps Hpu Hpn Hpe] Hmin Hrem Hrel.
  destruct (py_min_least _ _ _ Hnd Hmin) as (Hu & du & Hdu & Hleast).
  destruct (list_remove_spec u unvisited Hu) as (l' & Hrem' & _ & Hsub & _).
  rewrite Hrem in Hrem'. injection Hrem' as <-.
  pose proof (relax_all_prev u du _ _ _ _ _ Hdu Hrel) as Hrt.
  (* a distance that is at most dist[u] is not lowered *)
  assert (Hkeep : ∀ x m, Dict.get dist x = Some (Fin m) →
                         num_le (Fin m) du →
                         Dict.get dist' x = Some (Fin m)).
  { intros x m Hx Hle.
    destruct (Hrt x) as [[Hd _]|(e & dx & _ & _ & Hdx & Hl & _)].
    - congruence.
    - rewrite Hx in Hdx. injection Hdx as <-. exfalso. clear -Hl Hle.
      num_solve. }
  (* the distances of the switches left to visit stay above dist[u] *)
  assert (Habove : ∀ w dw, w ∈ unvisited' → Dict.get dist' w = Some dw →
                           num_le du dw).
  { intros w dw Hw Hdw.
    destruct (Hrt w) as [[Hd _]|(e & dx & _ & _ & _ & _ & Hd & _)].
    - apply (Hleast w); auto. congruence.
    - rewrite Hdw in Hd. injection Hd as ->. apply num_le_succ. }
  split.
  - destruct (Hrt source) as [[_ Hp]|(e & dx & _ & _ & Hdx & Hl & _)];
      [congruence|].
    rewrite Hsrc in Hdx. injection Hdx as <-. exfalso. clear -Hl. num_solve.
  - intros v Hv.
    destruct (Hrt v) as [[Hd Hp]|(e & dx & _ & _ & _ & Hl & Hd & _)].
    + rewrite Hp. apply Hpu. congruence.
    + rewrite Hv in Hd. exfalso. clear -Hl Hd. num_solve.
  - intros v Hv.
    destruct (Hrt v) as [[Hd Hp]|(e & dx & _ & _ & _ & _ & _ & Hp)];
      [|congruence].
    rewrite Hp in Hv. destruct (Hpn v Hv) as [->|Hinf]; [left; auto|].
    right. congruence.
  - intros v u0 p Hv.
    destruct (Hrt v) as [[Hd Hp]|(e & dx & He & Hx & Hdx & Hl & Hd & Hp)].
    + rewrite Hp in Hv. destruct (Hpe v u0 p Hv) as [Htree Hlow].
      destruct Htree as (e & m & He & Hs & Hde & Hport & Hdu0 & Hdv).
      destruct (Hlow u du Hu Hdu) as (m' & Hm' & Hle).
      rewrite Hdu0 in Hm'. injection Hm' as <-.
      pose proof (Hkeep u0 m Hdu0 Hle) as Hu0'.
      split.
      * exists e, m. repeat split; auto. congruence.
      * intros w dw Hw Hdw. exists m. split; [exact Hu0'|].
        apply num_le_trans with du; [exact Hle|]. apply (Habove w); auto.
    + rewrite Hp in Hv. injection Hv as <- <-.
      destruct (num_ltb_succ_fin _ _ Hl) as [m ->].
      apply list_elem_of_filter in He as [Hs He].
      assert (Hu' : Dict.get dist' u = Some (Fin m)).
      { apply Hkeep; [exact Hdu|apply num_le_refl]. }
      split.
      * exists e, m. repeat split; auto.
      * intros w dw Hw Hdw. exists m. split; [exact Hu'|].
        apply (Habove w); auto.
Qed.

Lemma prev_inv_loop vertices edges source :
  links_closed vertices edges →
  ∀ fuel dist prev unvisited dist' prev',
    dijkstra_inv vertices edges source dist prev unvisited →
    prev_inv edges source dist prev unvisited →
    dijkstra_loop fuel edges dist prev unvisited = Ok (dist', prev') →
    prev_inv edges source dist' prev' [].
Proof.
  intros Hclosed.
  induction fuel as [|fuel IH]; intros dist prev unvisited dist' prev' Hinv Hp Hrun.
  - destruct unvisited; [|discriminate]. simpl in Hrun.
    injection Hrun as <- <-. exact Hp.
  - destruct (decide (unvisited = [])) as [->|Hne].
    { simpl in Hrun. injection Hrun as <- <-. exact Hp. }
    destruct (dijkstra_step vertices edges source Hclosed dist prev unvisited
                Hinv Hne)
      as (u & unvisited' & dist1 & prev1 & Hmin & Hrem & Hrel & _ & Hinv1).
    rewrite dijkstra_loop_unfold in Hrun by exact Hne.
    rewrite Hmin, Hrem, Hrel in Hrun.
    apply (IH dist1 prev1 unvisited' dist' prev' Hinv1); [|exact Hrun].
    eapply prev_inv_step; eauto.
    + apply (inv_nodup _ _ _ _ _ _ Hinv).
    + apply (inv_source _ _ _ _ _ _ Hinv).
Qed.

Lemma dijkstra_init_prev : ∀ vs dist prev unvisited dist' prev' unvisited',
  dijkstra_init vs (dist, prev, unvisited) = (dist', prev', unvisited') →
  (∀ v, v ∈ vs → Dict.get prev' v = Some None) ∧
  (∀ v, v ∉ vs → Dict.get prev' v = Dict.get prev v).
Proof.
  induction vs as [|a vs IH]; intros dist prev unvisited dist' prev' unvisited' Hrun.
  - simpl in Hrun. injection Hrun as <- <- <-. split; auto.
    intros v Hv. inversion Hv.
  - simpl in Hrun. destruct (IH _ _ _ _ _ _ Hrun) as [Hin Hout]. split.
    + intros v Hv. destruct (decide (v ∈ vs)) as [Hvs|Hvs]; [auto|].
      apply elem_of_cons in Hv as [->|Hv]; [|contradiction].
      rewrite Hout by exact Hvs. apply get_set_eq.
    + intros v Hv. apply not_elem_of_cons in Hv as [Hne Hv].
      rewrite Hout by exact Hv. apply get_set_ne. congruence.
Qed.

(** What dijkstra returns satisfies both invariants with nothing left to
    visit. *)
Lemma dijkstra_Ok_inv vertices edges source dist prev :
  dijkstra vertices edges source = Ok (dist, prev) →
  dijkstra_inv vertices edges source dist prev [] ∧
  prev_inv edges source dist prev [].
Proof.
  intros Hrun.
  assert (Hs : source ∈ vertices).
  { destruct (decide (source ∈ vertices)) as [Hs|Hs]; [exact Hs|].
    unfold dijkstra in Hrun. rewrite decide_False in Hrun by exact Hs.
    discriminate. }
  assert (Hclosed : links_closed vertices edges).
  { destruct (closed_or_dangling vertices edges) as [Hc|Hd]; [exact Hc|].
    rewrite (dijkstra_dangling _ _ _ Hs Hd) in Hrun. discriminate. }
  destruct (dijkstra_returns _ _ _ Hs Hclosed) as (d & p & Hrun' & Hinv).
  rewrite Hrun in Hrun'. injection Hrun' as <- <-. split; [exact Hinv|].
  unfold dijkstra in Hrun. rewrite decide_True in Hrun by exact Hs.
  destruct (dijkstra_init_spec vertices [] [] [])
    as (dist0 & prev0 & Hinit & Hk & Hnd & Hkeys & Hin & Hout);
    [reflexivity|apply NoDup_nil; constructor|].
  destruct (dijkstra_init_prev _ _ _ _ _ _ _ Hinit) as [Hpin Hpout].
  rewrite Hinit in Hrun. simpl in Hrun.
  assert (Hsk : source ∈ Dict.keys dist0) by (apply Hkeys; right; exact Hs).
  assert (Hinv0 : dijkstra_inv vertices edges source
                    (Dict.set dist0 source (Fin 0)) prev0 vertices).
  { split.
    - apply NoDup_keys_set. exact Hnd.
    - intros v. rewrite keys_set_in by exact Hsk. rewrite Hkeys. split.
      + intros [H|H]; [inversion H|exact H].
      + auto.
    - rewrite keys_set_in by exact Hsk. exact Hk.
    - apply get_set_eq.
    - intros v n. rewrite get_set.
      destruct (decide (source = v)) as [->|Hne].
      + intros [= <-]. exists []. simpl. auto.
      + intros Hv. destruct (decide (v ∈ vertices)) as [Hvin|Hvout].
        * rewrite Hin in Hv by exact Hvin. discriminate.
        * rewrite Hout in Hv by exact Hvout. discriminate.
    - auto.
    - auto. }
  assert (Hnone : ∀ v x, Dict.get prev0 v = Some x → x = None).
  { intros v x Hv. destruct (decide (v ∈ vertices)) as [Hvin|Hvout].
    - rewrite Hpin in Hv by exact Hvin. congruence.
    - rewrite Hpout in Hv by exact Hvout. discriminate. }
  apply (prev_inv_loop vertices edges source Hclosed (length vertices)
           _ _ _ _ _ Hinv0);
    [|exact Hrun].
  split.
  - apply Hpin. exact Hs.
  - intros v Hv. apply Hpin. apply (inv_keys _ _ _ _ _ _ Hinv0).
    eapply get_Some_keys. exact Hv.
  - intros v Hv. destruct (decide (v = source)) as [->|Hne]; [left; auto|].
    right. rewrite get_set_ne by congruence.
    apply Hin. apply (inv_keys _ _ _ _ _ _ Hinv0).
    rewrite keys_set_in by exact Hsk. rewrite <- Hk.
    eapply get_Some_keys. exact Hv.
  - intros v u p Hv. apply Hnone in Hv. discriminate.
Qed.

(** X2: in the maps returned by dijkstra, [prev[v]] is [None] exactly for
    the source and for the vertices that no path reaches (so the two cannot
    be told apart by [prev] alone), and an entry [prev[v] = [u, port]]
    names a link from [u] to [v] that carries this port, with [v] exactly
    one hop farther from the source than [u]. *)
Theorem dijkstra_prev_tree vertices edges source dist prev :
  dijkstra vertices edges source = Ok (dist, prev) →
  (∀ v, v ∈ vertices →
        (Dict.get prev v = Some None ↔
         v = source ∨ Dict.get dist v = Some Inf)) ∧
  (∀ v u p, Dict.get prev v = Some (Some (u, p)) →
            tree_edge edges dist v u p).
Proof.
  intros Hrun. destruct (dijkstra_Ok_inv _ _ _ _ _ Hrun) as [Hinv Hp]. split.
  - intros v Hv. split; [apply (prev_none _ _ _ _ _ Hp)|].
    intros [->|Hinf].
    + apply (prev_source _ _ _ _ _ Hp).
    + apply (prev_unreachable _ _ _ _ _ Hp). exact Hinf.
  - intros v u p Hv. apply (prev_some _ _ _ _ _ Hp v u p Hv).
Qed.

Lemma dijkstra_prev_tree_witness :
  (∀ v, v ∈ [1; 2; 3; 4] →
        (Dict.get [(1, None); (2, Some (1, 7)); (3, Some (2, 8)); (4, None)]
           v = Some None ↔
         v = 1 ∨
         Dict.get [(1, Fin 0); (2, Fin 1); (3, Fin 2); (4, Inf)] v
           = Some Inf)) ∧
  (∀ v u p,
     Dict.get [(1, None); (2, Some (1, 7)); (3, Some (2, 8)); (4, None)] v
       = Some (Some (u, p)) →
     tree_edge [Edge 1 2 7; Edge 2 3 8; Edge 3 2 9]
       [(1, Fin 0); (2, Fin 1); (3, Fin 2); (4, Inf)] v u p).
Proof.
  apply (dijkstra_prev_tree [1; 2; 3; 4]
           [Edge 1 2 7; Edge 2 3 8; Edge 3 2 9] 1).
  vm_compute. reflexivity.
Defined.

(** X3: the two maps returned by dijkstra have the same keys in the same
    order, one entry for each distinct vertex and none for anything else,
    whether or not the list of vertices repeats a vertex. *)
Theorem dijkstra_maps_cover_vertices vertices edges source dist prev :
  dijkstra vertices edges source = Ok (dist, prev) →
  Dict.keys prev = Dict.keys dist ∧ NoDup (Dict.keys dist) ∧
  ∀ v, v ∈ Dict.keys dist ↔ v ∈ vertices.
Proof.
  intros Hrun. destruct (dijkstra_Ok_inv _ _ _ _ _ Hrun) as [Hinv _].
  split; [apply (inv_prev _ _ _ _ _ _ Hinv)|].
  split; [apply (inv_nodup _ _ _ _ _ _ Hinv)|].
  apply (inv_keys _ _ _ _ _ _ Hinv).
Qed.

Lemma dijkstra_maps_cover_vertices_witness :
  Dict.keys [(1, None); (2, Some (1, 7))] = Dict.keys [(1, Fin 0); (2, Fin 1)] ∧
  NoDup (Dict.keys [(1, Fin 0); (2, Fin 1)]) ∧
  ∀ v, v ∈ Dict.keys [(1, Fin 0); (2, Fin 1)] ↔ v ∈ [1; 2; 1; 2].
Proof.
  apply (dijkstra_maps_cover_vertices [1; 2; 1; 2] [Edge 1 2 7] 1
           [(1, Fin 0); (2, Fin 1)] [(1, None); (2, Some (1, 7))]).
  vm_compute. reflexivity.
Defined.

(** ** Compilation: what is emitted *)

Lemma del_get_ne {K V} `{EqDecision K} (d d' : list (K * V)) k k' :
  Dict.del d k = Some d' → k' ≠ k → Dict.get d' k' = Dict.get d k'.
Proof.
  revert d'. induction d as [|[k0 v0] d IH]; simpl; [discriminate|].
  intros d' Hdel Hne. destruct (decide (k0 = k)) as [->|Hne0].
  - injection Hdel as <-. rewrite decide_False by congruence. reflexivity.
  - destruct (Dict.del d k) as [d''|] eqn:E; [|discriminate].
    injection Hdel as <-. simpl. destruct (decide (k0 = k')); auto.
Qed.

Lemma del_NoDup {K V} `{EqDecision K} (d d' : list (K * V)) k :
  NoDup (Dict.keys d) → Dict.del d k = Some d' →
  NoDup (Dict.keys d') ∧ k ∉ Dict.keys d'.
Proof.
  revert d'. induction d as [|[k0 v0] d IH]; simpl; [discriminate|].
  intros d' Hnd Hdel. apply NoDup_cons in Hnd as [Hk0 Hnd].
  destruct (decide (k0 = k)) as [->|Hne0].
  - injection Hdel as <-. auto.
  - destruct (Dict.del d k) as [d''|] eqn:E; [|discriminate].
    injection Hdel as <-. destruct (IH d'' Hnd eq_refl) as [Hnd' Hk].
    simpl. split.
    + apply NoDup_cons. split; [|exact Hnd'].
      intros Hin. apply Hk0. apply keys_get_Some in Hin as [v Hv].
      rewrite (del_get_ne _ _ _ _ E) in Hv by exact Hne0.
      eapply get_Some_keys. exact Hv.
    + apply not_elem_of_cons. split; [congruence|exact Hk].
Qed.

Lemma compile_trace_refl s r : compile_trace s r r [].
Proof.
  unfold compile_trace. rewrite app_nil_r. repeat split; auto.
Qed.

Lemma compile_trace_trans s r r1 r2 n1 n2 :
  compile_trace s r r1 n1 → compile_trace s r1 r2 n2 →
  compile_trace s r r2 (n1 ++ n2).
Proof.
  intros (Hd & Hp & Hf & Ha & Hr & He & Hn)
         (Hd' & Hp' & Hf' & Ha' & Hr' & He' & Hn').
  unfold compile_trace. split; [congruence|]. split; [congruence|].
  split; [rewrite Hf', Hf, app_assoc; reflexivity|].
  split; [intros k Hk; rewrite Ha', Ha; auto|].
  split.
  { apply Forall_app. split; [exact Hr|].
    eapply Forall_impl; [exact Hr'|].
    intros m [Hsw Hm]. split; [exact Hsw|].
    intros k Hk. rewrite Hm, Ha; auto. }
  split.
  { intros Hnil. apply app_eq_nil in Hnil as [-> ->].
    rewrite He', He; auto. }
  intros Hnd. destruct (Hn Hnd) as [Hnd1 Hin1].
  destruct (Hn' Hnd1) as [Hnd2 Hin2]. split; [exact Hnd2|].
  intros Hne. destruct n2 as [|m n2].
  - rewrite He' by reflexivity. apply Hin1. rewrite app_nil_r in Hne. exact Hne.
  - apply Hin2. discriminate.
Qed.

Lemma compile_port_trace rule switch port in_port s r :
  heap s !! rule = Some r →
  switch ∈ topo_switches s → in_port ∈ ports (dp switch) →
  ∃ r' new,
    compile_port rule (dp switch) port [OFPActionOutput port] in_port s
      = (Ok (), store_rule rule r' s) ∧
    compile_trace s r r' new.
Proof.
  intros H Hsw Hport. unfold compile_port.
  destruct (decide (in_port = port)) as [Heq|Hne].
  { exists r, []. rewrite store_rule_id by exact H.
    split; [reflexivity|apply compile_trace_refl]. }
  destruct (decide (in_port = 65534)) as [Heq|Hne'].
  { exists r, []. rewrite store_rule_id by exact H.
    split; [reflexivity|apply compile_trace_refl]. }
  destruct (del_set_key (match_ r) "in_port" (PInt in_port)) as (m & Hdel & Hm).
  eexists _, _. split.
  - erewrite bind_ok by (apply update_run; exact H).
    erewrite bind_ok by (apply deref_run, heap_store_rule).
    simpl. rewrite Hdel.
    erewrite bind_ok by reflexivity.
    erewrite bind_ok by (apply update_run, heap_store_rule).
    erewrite update_run by apply heap_store_rule.
    rewrite !store_rule_twice. reflexivity.
  - unfold compile_trace. simpl. split; [reflexivity|]. split; [reflexivity|].
    split; [reflexivity|]. split.
    { intros k Hk. rewrite (del_get_ne _ _ _ _ Hdel) by exact Hk.
      apply get_set_ne. congruence. }
    split.
    { apply Forall_singleton. split.
      - exists switch, in_port. simpl. rewrite get_set_eq. auto.
      - intros k Hk. simpl. apply get_set_ne. congruence. }
    split; [discriminate|].
    intros Hnd. pose proof (NoDup_keys_set _ "in_port"%string (PInt in_port) Hnd)
      as Hnd1.
    destruct (del_NoDup _ _ _ Hnd1 Hdel) as [Hnd2 Hout]. auto.
Qed.

Lemma compile_ports_trace rule switch port : ∀ l s r,
  heap s !! rule = Some r →
  switch ∈ topo_switches s → (∀ p, p ∈ l → p ∈ ports (dp switch)) →
  ∃ r' new,
    for_each l (compile_port rule (dp switch) port [OFPActionOutput port]) s
      = (Ok (), store_rule rule r' s) ∧
    compile_trace s r r' new.
Proof.
  induction l as [|in_port l IH]; intros s r H Hsw Hl.
  - exists r, []. rewrite store_rule_id by exact H.
    split; [reflexivity|apply compile_trace_refl].
  - destruct (compile_port_trace rule switch port in_port s r H Hsw)
      as (r1 & n1 & Hrun1 & Hc1); [apply Hl; left|].
    destruct (IH (store_rule rule r1 s) r1 (heap_store_rule _ _ _) Hsw)
      as (r2 & n2 & Hrun2 & Hc2); [intros p Hp; apply Hl; right; exact Hp|].
    exists r2, (n1 ++ n2). split.
    + simpl. erewrite bind_ok by exact Hrun1. rewrite Hrun2.
      rewrite store_rule_twice. reflexivity.
    + eapply compile_trace_trans; eauto.
Qed.

Lemma compile_pred_trace rule preds pred s r :
  heap s !! rule = Some r →
  ∃ out r' new,
    compile_pred rule preds pred s = (out, store_rule rule r' s) ∧
    compile_trace s r r' new.
Proof.
  intros H. unfold compile_pred.
  assert (Hfail : ∀ e, ∃ (out : res unit) r' new,
            (Raise e, s) = (out, store_rule rule r' s) ∧
            compile_trace s r r' new).
  { intros e. exists (Raise e), r, []. rewrite store_rule_id by exact H.
    split; [reflexivity|apply compile_trace_refl]. }
  assert (Hloop : ∀ sw rest d port,
            filter (λ switch, id (dp switch) = d) (topo_switches s)
              = sw :: rest →
            ∃ (out : res unit) r' new,
              for_each (ports (dp sw))
                (compile_port rule (dp sw) port [OFPActionOutput port]) s
                = (out, store_rule rule r' s) ∧
              compile_trace s r r' new).
  { intros sw rest d port Hf.
    assert (Hsw : sw ∈ topo_switches s).
    { assert (Hin : sw ∈ filter (λ switch, id (dp switch) = d)
                           (topo_switches s)) by (rewrite Hf; left).
      apply list_elem_of_filter in Hin as [_ Hin]. exact Hin. }
    destruct (compile_ports_trace rule sw port (ports (dp sw)) s r H Hsw)
      as (r' & new & Hrun & Hc); [auto|].
    exists (Ok ()), r', new. auto. }
  destruct (Dict.get preds pred) as [p|] eqn:Hp; [|apply Hfail].
  erewrite bind_ok by reflexivity.
  destruct p as [[u port]|].
  - destruct (filter (λ switch, id (dp switch) = pred) (topo_switches s))
      as [|sw rest] eqn:Hf.
    + unfold mbind, M_bind, get_switch, gets. rewrite Hf. apply Hfail.
    + unfold mbind, M_bind, get_switch, gets. rewrite Hf. simpl.
      eapply Hloop. exact Hf.
  - destruct (filter (λ switch, id (dp switch) = ttp_dpid r) (topo_switches s))
      as [|sw rest] eqn:Hf.
    + unfold mbind, M_bind, get_switch, gets, deref. rewrite H, Hf.
      apply Hfail.
    + unfold mbind, M_bind, get_switch, gets, deref. rewrite H, Hf.
      simpl. rewrite H. simpl. eapply Hloop. exact Hf.
Qed.

Lemma compile_preds_trace rule preds : ∀ l s r,
  heap s !! rule = Some r →
  ∃ out r' new,
    for_each l (compile_pred rule preds) s = (out, store_rule rule r' s) ∧
    compile_trace s r r' new.
Proof.
  induction l as [|pred l IH]; intros s r H.
  - exists (Ok ()), r, []. rewrite store_rule_id by exact H.
    split; [reflexivity|apply compile_trace_refl].
  - destruct (compile_pred_trace rule preds pred s r H)
      as (out1 & r1 & n1 & Hrun1 & Hc1).
    destruct out1 as [[]|e|].
    + destruct (IH (store_rule rule r1 s) r1 (heap_store_rule _ _ _))
        as (out2 & r2 & n2 & Hrun2 & Hc2).
      exists out2, r2, (n1 ++ n2). split.
      * simpl. erewrite bind_ok by exact Hrun1. rewrite Hrun2.
        rewrite store_rule_twice. reflexivity.
      * eapply compile_trace_trans; eauto.
    + exists (Raise e), r1, n1. split; [|exact Hc1].
      simpl. erewrite bind_raise by exact Hrun1. reflexivity.
    + exists OutOfFuel, r1, n1. split; [|exact Hc1].
      simpl. unfold mbind, M_bind. rewrite Hrun1. reflexivity.
Qed.

Lemma _compile_rule_trace rule s r :
  heap s !! rule = Some r →
  ∃ out r' new,
    _compile_rule rule s = (out, store_rule rule r' s) ∧
    compile_trace s r r' new.
Proof.
  intros H. unfold _compile_rule.
  erewrite bind_ok by (apply deref_run; exact H).
  unfold mbind at 1. unfold M_bind. rewrite _compute_spanning_tree_run.
  destruct (dijkstra (snapshot_switches s) (snapshot_links s) (ttp_dpid r))
    as [[dist preds]|e|] eqn:Hd.
  - apply compile_preds_trace. exact H.
  - exists (Raise e), r, []. rewrite store_rule_id by exact H.
    split; [reflexivity|apply compile_trace_refl].
  - exists OutOfFuel, r, []. rewrite store_rule_id by exact H.
    split; [reflexivity|apply compile_trace_refl].
Qed.

(** X4: every rule that a compilation appends to the rule set of an
    intent is addressed to a switch of the snapshot, forces the ingress
    port to one of the ports of that switch, and carries every other field
    of the match of the intent unchanged. *)
Theorem compile_rules_carry_match rule s r out s' :
  heap s !! rule = Some r →
  _compile_rule rule s = (out, s') →
  ∃ r' new,
    heap s' !! rule = Some r' ∧ flow_mods r' = flow_mods r ++ new ∧
    Forall (rule_for s r) new.
Proof.
  intros H Hrun.
  destruct (_compile_rule_trace rule s r H) as (out' & r' & new & Hrun' & Hc).
  rewrite Hrun in Hrun'. injection Hrun' as -> ->.
  exists r', new. split; [apply heap_store_rule|].
  destruct Hc as (_ & _ & Hf & _ & Hr & _). auto.
Qed.

Lemma compile_rules_carry_match_witness :
  ∃ r' new,
    heap (_compile_rule 0%nat
            (snapshot [switch1; switch2] [link12; link21] (intent_to 1))).2
      !! 0%nat = Some r' ∧
    flow_mods r' = flow_mods (intent_to 1) ++ new ∧
    Forall (rule_for
              (snapshot [switch1; switch2] [link12; link21] (intent_to 1))
              (intent_to 1)) new.
Proof.
  apply (compile_rules_carry_match 0%nat
           (snapshot [switch1; switch2] [link12; link21] (intent_to 1))
           (intent_to 1)
           (_compile_rule 0%nat
              (snapshot [switch1; switch2] [link12; link21] (intent_to 1))).1).
  - reflexivity.
  - apply surjective_pairing.
Defined.

(** X5: an ingress port named by the match of the intent is not kept: the
    rules emitted force their own ingress port in its place, and once a
    compilation has emitted a rule the match of the intent names no
    ingress port any more; a compilation that emits nothing leaves the
    match as it was. *)
Theorem compile_erases_ingress_port rule s r out s' :
  heap s !! rule = Some r →
  NoDup (Dict.keys (match_ r)) →
  _compile_rule rule s = (out, s') →
  ∃ r' new,
    heap s' !! rule = Some r' ∧ flow_mods r' = flow_mods r ++ new ∧
    (new = [] → match_ r' = match_ r) ∧
    (new ≠ [] → "in_port" ∉ Dict.keys (match_ r')) ∧
    (∀ k, k ≠ "in_port"%string →
          Dict.get (match_ r') k = Dict.get (match_ r) k).
Proof.
  intros H Hnd Hrun.
  destruct (_compile_rule_trace rule s r H) as (out' & r' & new & Hrun' & Hc).
  rewrite Hrun in Hrun'. injection Hrun' as -> ->.
  exists r', new. split; [apply heap_store_rule|].
  destruct Hc as (_ & _ & Hf & Ha & _ & He & Hn).
  destruct (Hn Hnd) as [_ Hin]. auto.
Qed.

Lemma compile_erases_ingress_port_witness :
  ∃ r' new,
    heap (_compile_rule 0%nat
            (snapshot [switch1] [] intent_with_in_port)).2 !! 0%nat
      = Some r' ∧
    flow_mods r' = flow_mods intent_with_in_port ++ new ∧
    (new = [] → match_ r' = match_ intent_with_in_port) ∧
    (new ≠ [] → "in_port" ∉ Dict.keys (match_ r')) ∧
    (∀ k, k ≠ "in_port"%string →
          Dict.get (match_ r') k = Dict.get (match_ intent_with_in_port) k).
Proof.
  apply (compile_erases_ingress_port 0%nat
           (snapshot [switch1] [] intent_with_in_port) intent_with_in_port
           (_compile_rule 0%nat
              (snapshot [switch1] [] intent_with_in_port)).1).
  - reflexivity.
  - apply (bool_decide_unpack _). vm_compute. exact I.
  - apply surjective_pairing.
Defined.

(** ** add_rule *)

Lemma _compile_rule_raises rule s r e :
  heap s !! rule = Some r →
  dijkstra (snapshot_switches s) (snapshot_links s) (ttp_dpid r) = Raise e →
  _compile_rule rule s = (Raise e, s).
Proof.
  intros H Hd. unfold _compile_rule.
  erewrite bind_ok by (apply deref_run; exact H).
  unfold mbind at 1. unfold M_bind. rewrite _compute_spanning_tree_run, Hd.
  reflexivity.
Qed.

Lemma add_rule_raises rule s r e :
  heap s !! rule = Some r →
  dijkstra (snapshot_switches s) (snapshot_links s) (ttp_dpid r) = Raise e →
  add_rule rule s = (Raise e, s).
Proof.
  intros H Hd. unfold add_rule.
  erewrite bind_raise by (eapply _compile_rule_raises; eauto). reflexivity.
Qed.

(** X6: when a link of the snapshot leaves a switch of the snapshot for a
    switch that is not in it, [add_rule] of an intent with a valid target
    fails with KeyError and leaves the whole state as it was: nothing is
    compiled, sent or stored. *)
Theorem add_rule_dangling_link rule s r :
  heap s !! rule = Some r →
  ttp_dpid r ∈ snapshot_switches s →
  dangling_link (snapshot_switches s) (snapshot_links s) →
  add_rule rule s = (Raise KeyError, s).
Proof.
  intros H Ht Hd. eapply add_rule_raises; [exact H|].
  apply dijkstra_dangling; assumption.
Qed.

Lemma add_rule_dangling_link_witness :
  add_rule 0%nat (snapshot [switch1] [link12] (intent_to 1))
  = (Raise KeyError, snapshot [switch1] [link12] (intent_to 1)).
Proof.
  apply (add_rule_dangling_link 0%nat
           (snapshot [switch1] [link12] (intent_to 1)) (intent_to 1)).
  - reflexivity.
  - vm_compute. elem_of_list.
  - exists (Edge 1 2 1). split; [vm_compute; elem_of_list|].
    split; [vm_compute; elem_of_list|].
    apply (bool_decide_unpack _). vm_compute. exact I.
Defined.

(** X7: [add_rule] returns normally exactly when the target of the intent
    is a switch of the snapshot and every link that leaves a switch of the
    snapshot arrives at a switch of the snapshot. *)
Theorem add_rule_succeeds_iff rule s r :
  heap s !! rule = Some r →
  ((add_rule rule s).1 = Ok () ↔
   ttp_dpid r ∈ snapshot_switches s ∧
   links_closed (snapshot_switches s) (snapshot_links s)).
Proof.
  intros H. split.
  - intros Hok.
    destruct (decide (ttp_dpid r ∈ snapshot_switches s)) as [Ht|Ht].
    + split; [exact Ht|].
      destruct (closed_or_dangling (snapshot_switches s) (snapshot_links s))
        as [Hc|Hd]; [exact Hc|].
      rewrite (add_rule_raises rule s r KeyError H) in Hok; [discriminate|].
      apply dijkstra_dangling; assumption.
    + rewrite (add_rule_raises rule s r ValueError H) in Hok; [discriminate|].
      unfold dijkstra. rewrite decide_False by exact Ht. reflexivity.
  - intros [Ht Hc].
    destruct (_compile_rule_run rule s r H)
      as (out & r' & new & Hrun & _ & _ & Hok & _).
    rewrite (Hok Ht Hc) in Hrun.
    rewrite (add_rule_run _ _ _ _ Hrun). reflexivity.
Qed.

Lemma add_rule_succeeds_iff_witness :
  (add_rule 0%nat
     (snapshot [switch1; switch2] [link12; link21] (intent_to 1))).1 = Ok () ↔
  ttp_dpid (intent_to 1)
    ∈ snapshot_switches
        (snapshot [switch1; switch2] [link12; link21] (intent_to 1)) ∧
  links_closed
    (snapshot_switches
       (snapshot [switch1; switch2] [link12; link21] (intent_to 1)))
    (snapshot_links
       (snapshot [switch1; switch2] [link12; link21] (intent_to 1))).
Proof.
  apply (add_rule_succeeds_iff 0%nat
           (snapshot [switch1; switch2] [link12; link21] (intent_to 1))
           (intent_to 1)).
  reflexivity.
Defined.

(** X8: a successful [add_rule] sends an install for every rule of the
    rule set of the intent: first the rules the set held before the call
    (an intent that is added again has its earlier rules sent again), then
    the rules this call compiled, which it appends to the set. *)
Theorem add_rule_resends_earlier_rules rule s r s' :
  heap s !! rule = Some r →
  add_rule rule s = (Ok (), s') →
  ∃ r' new,
    heap s' !! rule = Some r' ∧ flow_mods r' = flow_mods r ++ new ∧
    sent s' = sent s ++ map install_of (flow_mods r) ++ map install_of new.
Proof.
  intros H Hadd.
  destruct (_compile_rule_run rule s r H)
    as (out & r' & new & Hrun & Hc & _).
  rewrite (add_rule_run _ _ _ _ Hrun) in Hadd.
  destruct out as [[]|e|]; try discriminate.
  injection Hadd as <-. destruct Hc as (_ & _ & _ & Hf & _).
  exists r', new. simpl. split; [apply lookup_insert_eq|].
  split; [exact Hf|]. rewrite Hf, map_app. reflexivity.
Qed.

Lemma add_rule_resends_earlier_rules_witness :
  ∃ r' new,
    heap (add_rule 1%nat registry_with_old_intent).2 !! 1%nat = Some r' ∧
    flow_mods r' = flow_mods (set_flow_mods [old_rule] (intent_to 2)) ++ new ∧
    sent (add_rule 1%nat registry_with_old_intent).2
    = sent registry_with_old_intent
      ++ map install_of (flow_mods (set_flow_mods [old_rule] (intent_to 2)))
      ++ map install_of new.
Proof.
  apply (add_rule_resends_earlier_rules 1%nat registry_with_old_intent
           (set_flow_mods [old_rule] (intent_to 2))).
  - reflexivity.
  - vm_compute. reflexivity.
Defined.

(** ** remove_rule and update_rule *)

(** X9: [remove_rule] on the uuid of a stored intent sends one delete for
    each rule of its rule set and nothing else, erases that registry entry
    and no other, and leaves the intent objects (the rule set of the
    removed intent included) and the MAC table as they were. *)
Theorem remove_rule_stored u s rule r :
  Dict.get (rules s) u = Some rule → heap s !! rule = Some r →
  NoDup (Dict.keys (rules s)) →
  ∃ s',
    remove_rule (Some u) s = (Ok (), s') ∧
    sent s' = sent s ++ map delete_of (flow_mods r) ∧
    Dict.get (rules s') u = None ∧
    (∀ u', u' ≠ u → Dict.get (rules s') u' = Dict.get (rules s) u') ∧
    heap s' = heap s ∧ mac_to_port s' = mac_to_port s.
Proof.
  intros Hu Hr Hnd.
  destruct (Dict.del (rules s) u) as [rs|] eqn:Hdel.
  2:{ apply del_None in Hdel. exfalso. apply Hdel.
      eapply get_Some_keys. exact Hu. }
  eexists. split; [apply (remove_rule_run _ _ _ _ _ Hu Hr Hdel)|]. simpl.
  split; [reflexivity|]. split.
  - rewrite (del_get _ _ _ u Hnd Hdel). rewrite decide_True; auto.
  - split; [|auto]. intros u' Hne.
    rewrite (del_get _ _ _ u' Hnd Hdel). rewrite decide_False; auto.
Qed.

Lemma remove_rule_stored_witness :
  ∃ s',
    remove_rule (Some 78) registry_of_two = (Ok (), s') ∧
    sent s'
    = sent registry_of_two
      ++ map delete_of (flow_mods (set_flow_mods [rule_1_2] intent_with_in_port)) ∧
    Dict.get (rules s') 78 = None ∧
    (∀ u', u' ≠ 78 →
           Dict.get (rules s') u' = Dict.get (rules registry_of_two) u') ∧
    heap s' = heap registry_of_two ∧
    mac_to_port s' = mac_to_port registry_of_two.
Proof.
  apply (remove_rule_stored 78 registry_of_two 2%nat
           (set_flow_mods [rule_1_2] intent_with_in_port)).
  - reflexivity.
  - reflexivity.
  - apply (bool_decide_unpack _). vm_compute. exact I.
Defined.

Lemma remove_all_run : ∀ rs s,
  rules s = rs →
  (∀ u rule, (u, rule) ∈ rs → is_Some (heap s !! rule)) →
  for_each (Dict.keys rs)
    (λ uuid, _remove_reverse_path uuid;; del_rules uuid) s
  = (Ok (),
     set_rules [] (set_sent (sent s ++ registry_deletes (heap s) rs) s)).
Proof.
  induction rs as [|[u rule] rs IH]; intros s Hrs Hheap.
  - simpl. unfold registry_deletes. simpl. rewrite set_sent_id.
    destruct s. simpl in Hrs. subst. reflexivity.
  - destruct (Hheap u rule) as [r Hr]; [left|].
    assert (Hget : Dict.get (rules s) u = Some rule).
    { rewrite Hrs. simpl. rewrite decide_True; auto. }
    assert (Hdel : Dict.del (rules s) u = Some rs).
    { rewrite Hrs. simpl. rewrite decide_True; auto. }
    simpl for_each.
    erewrite bind_ok.
    2:{ erewrite bind_ok by (eapply _remove_reverse_path_run; eauto).
        unfold del_rules. erewrite bind_ok by reflexivity.
        simpl. rewrite Hdel. reflexivity. }
    rewrite IH; [|reflexivity|].
    + unfold registry_deletes. simpl. rewrite Hr.
      unfold set_rules, set_sent. simpl. rewrite <- app_assoc. reflexivity.
    + intros u' rule' Hin. simpl. apply (Hheap u' rule'). right. exact Hin.
Qed.

(** X10: [remove_rule] without a uuid empties the registry and sends, for
    each stored intent in the order of the registry, one delete for each
    rule of its rule set, and nothing else; the intent objects are left as
    they were.  On an empty registry it sends nothing. *)
Theorem remove_rule_all s :
  (∀ u rule, (u, rule) ∈ rules s → is_Some (heap s !! rule)) →
  ∃ s',
    remove_rule None s = (Ok (), s') ∧
    rules s' = [] ∧
    sent s' = sent s ++ registry_deletes (heap s) (rules s) ∧
    heap s' = heap s ∧ mac_to_port s' = mac_to_port s.
Proof.
  intros Hheap. eexists. split.
  - unfold remove_rule. erewrite bind_ok by reflexivity.
    apply remove_all_run; auto.
  - simpl. auto.
Qed.

Lemma remove_rule_all_witness :
  ∃ s',
    remove_rule None registry_of_two = (Ok (), s') ∧
    rules s' = [] ∧
    sent s'
    = sent registry_of_two
      ++ registry_deletes (heap registry_of_two) (rules registry_of_two) ∧
    heap s' = heap registry_of_two ∧
    mac_to_port s' = mac_to_port registry_of_two.
Proof.
  apply (remove_rule_all registry_of_two).
  intros u rule Hin. simpl in Hin.
  apply elem_of_cons in Hin as [Heq|Hin].
  { injection Heq as -> ->. eexists. reflexivity. }
  apply elem_of_cons in Hin as [Heq|Hin].
  { injection Heq as -> ->. eexists. reflexivity. }
  inversion Hin.
Defined.

(** X11: [update_rule] is not atomic.  When the uuid is stored and the
    target of the new intent is not a switch of the snapshot, the call
    fails with ValueError after the old intent has been removed: the
    deletes for its rules have been sent and its registry entry is gone,
    while nothing of the new intent has been installed or stored. *)
Theorem update_rule_loses_old_intent u s old ro rule r :
  Dict.get (rules s) u = Some old → heap s !! old = Some ro →
  heap s !! rule = Some r →
  ttp_dpid r ∉ snapshot_switches s →
  ∃ s',
    update_rule (Some u) rule s = (Raise ValueError, s') ∧
    sent s' = sent s ++ map delete_of (flow_mods ro) ∧
    Dict.del (rules s) u = Some (rules s') ∧
    heap s' = heap s.
Proof.
  intros Hu Ho Hr Ht.
  destruct (Dict.del (rules s) u) as [rs|] eqn:Hdel.
  2:{ apply del_None in Hdel. exfalso. apply Hdel.
      eapply get_Some_keys. exact Hu. }
  eexists. split.
  - unfold update_rule.
    erewrite bind_ok by (apply (remove_rule_run _ _ _ _ _ Hu Ho Hdel)).
    apply (add_rule_raises _ _ r); [exact Hr|].
    unfold dijkstra. rewrite decide_False by exact Ht. reflexivity.
  - simpl. auto.
Qed.

Lemma update_rule_loses_old_intent_witness :
  ∃ s',
    update_rule (Some 77) 0%nat registry_of_two = (Raise ValueError, s') ∧
    sent s'
    = sent registry_of_two
      ++ map delete_of (flow_mods (set_flow_mods [old_rule] (intent_to 2))) ∧
    Dict.del (rules registry_of_two) 77 = Some (rules s') ∧
    heap s' = heap registry_of_two.
Proof.
  apply (update_rule_loses_old_intent 77 registry_of_two 1%nat
           (set_flow_mods [old_rule] (intent_to 2)) 0%nat (intent_to 9)).
  - reflexivity.
  - reflexivity.
  - reflexivity.
  - apply (bool_decide_unpack _). vm_compute. exact I.
Defined.

(** X17: a successful [update_rule] on a stored uuid first sends the
    deletes for the rules of the old intent, then the installs for the
    rule set of the new one, and stores the new intent under its own
    uuid. *)
Theorem update_rule_deletes_then_installs u s old ro rule r s' :
  Dict.get (rules s) u = Some old → heap s !! old = Some ro →
  heap s !! rule = Some r →
  update_rule (Some u) rule s = (Ok (), s') →
  ∃ r',
    heap s' !! rule = Some r' ∧
    sent s' = sent s ++ map delete_of (flow_mods ro)
                     ++ map install_of (flow_mods r') ∧
    Dict.get (rules s') (uuid r) = Some rule.
Proof.
  intros Hu Ho Hr Hrun.
  destruct (Dict.del (rules s) u) as [rs|] eqn:Hdel.
  2:{ apply del_None in Hdel. exfalso. apply Hdel.
      eapply get_Some_keys. exact Hu. }
  unfold update_rule in Hrun.
  erewrite bind_ok in Hrun by (apply (remove_rule_run _ _ _ _ _ Hu Ho Hdel)).
  match type of Hrun with
  | add_rule rule ?x = _ => remember x as s1 eqn:Hs1
  end.
  assert (Hr1 : heap s1 !! rule = Some r) by (rewrite Hs1; exact Hr).
  destruct (_compile_rule_run rule s1 r Hr1)
    as (out & r' & new & Hrun' & Hc & _).
  rewrite (add_rule_run _ _ _ _ Hrun') in Hrun.
  destruct out as [[]|e|]; try discriminate.
  injection Hrun as <-. destruct Hc as (Hid & _).
  exists r'. simpl. split; [apply lookup_insert_eq|]. split.
  - rewrite Hs1. simpl. rewrite <- app_assoc. reflexivity.
  - rewrite Hid. apply get_set_eq.
Qed.

Lemma update_rule_deletes_then_installs_witness :
  ∃ r',
    heap (update_rule (Some 77) 2%nat registry_of_two).2 !! 2%nat = Some r' ∧
    sent (update_rule (Some 77) 2%nat registry_of_two).2
    = sent registry_of_two
      ++ map delete_of (flow_mods (set_flow_mods [old_rule] (intent_to 2)))
      ++ map install_of (flow_mods r') ∧
    Dict.get (rules (update_rule (Some 77) 2%nat registry_of_two).2)
      (uuid (set_flow_mods [rule_1_2] intent_with_in_port)) = Some 2%nat.
Proof.
  apply (update_rule_deletes_then_installs 77 registry_of_two 1%nat
           (set_flow_mods [old_rule] (intent_to 2)) 2%nat
           (set_flow_mods [rule_1_2] intent_with_in_port)).
  - reflexivity.
  - reflexivity.
  - reflexivity.
  - vm_compute. reflexivity.
Defined.

(** ** The learning switch *)

(** What the handler does with a frame it does not drop. *)
Lemma _packet_in_handler_run ev s :
  handled ev →
  _packet_in_handler ev s
  = (Ok (),
     set_sent
       (sent s
        ++ (if decide (resolved_port ev s ≠ OFPP_FLOOD)
            then [learned_flow ev (resolved_port ev s)] else [])
        ++ [packet_out ev (resolved_port ev s)])
       (set_mac_to_port
          (<[id (msg_datapath ev) := table_after ev s]> (mac_to_port s)) s)).
Proof.
  intros (Hl & Hi & octet & Hoct & Hbit).
  unfold _packet_in_handler.
  rewrite decide_False by exact Hl. rewrite decide_False by exact Hi.
  erewrite bind_ok by (unfold lift; rewrite Hoct; reflexivity).
  rewrite decide_False by (intros Hb; apply Hb; exact Hbit).
  unfold mbind, M_bind, modify, gets, _add_flow, send_msg, modify, mret, M_ret.
  unfold resolved_port, table_after, learned_flow, packet_out.
  destruct (mac_to_port s !! id (msg_datapath ev)) as [table|] eqn:Htable;
    simpl; repeat (rewrite ?Htable, ?lookup_insert_eq; simpl);
    match goal with
    | |- context [decide (?p ≠ OFPP_FLOOD)] =>
        destruct (decide (p ≠ OFPP_FLOOD))
    end;
    simpl; unfold set_sent, set_mac_to_port; simpl;
    rewrite <- ?app_assoc; rewrite ?insert_insert_eq; reflexivity.
Qed.

(** X12: a frame that the handler does not drop and whose destination
    resolves, in the table of its switch once the source has been learned,
    to a port other than the flood port makes the handler send exactly two
    messages to that switch: a permanent install of priority 100 that
    matches the ingress port and the destination address and forwards to
    the resolved port, then a packet-out to the same port. *)
Theorem known_destination_installs_flow ev s :
  handled ev → resolved_port ev s ≠ OFPP_FLOOD →
  ∃ s',
    _packet_in_handler ev s = (Ok (), s') ∧
    sent s' = sent s ++ [learned_flow ev (resolved_port ev s);
                         packet_out ev (resolved_port ev s)].
Proof.
  intros Hh Hp. eexists. split; [apply _packet_in_handler_run; exact Hh|].
  simpl. rewrite decide_True by exact Hp. reflexivity.
Qed.

Lemma known_destination_installs_flow_witness :
  ∃ s',
    _packet_in_handler reply_frame table_known = (Ok (), s') ∧
    sent s'
    = sent table_known
      ++ [learned_flow reply_frame (resolved_port reply_frame table_known);
          packet_out reply_frame (resolved_port reply_frame table_known)].
Proof.
  apply (known_destination_installs_flow reply_frame table_known).
  - split; [vm_compute; discriminate|]. split; [vm_compute; discriminate|].
    exists 0. split; reflexivity.
  - vm_compute. discriminate.
Defined.

(** X13: a frame that the handler does not drop and whose destination is
    not in the table of its switch makes the handler send exactly one
    message, a packet-out to the flood port: no rule is installed. *)
Theorem unknown_destination_floods ev s :
  handled ev →
  table_after ev s !! eth_dst (msg_eth ev) = None →
  ∃ s',
    _packet_in_handler ev s = (Ok (), s') ∧
    sent s' = sent s ++ [packet_out ev OFPP_FLOOD].
Proof.
  intros Hh Hnone. eexists. split; [apply _packet_in_handler_run; exact Hh|].
  simpl. unfold resolved_port. rewrite Hnone.
  rewrite decide_False by (intros Hne; apply Hne; reflexivity). reflexivity.
Qed.

Lemma unknown_destination_floods_witness :
  ∃ s',
    _packet_in_handler (frame 0x0800 "00:00:00:00:00:0b")
      (snapshot [switch1] [] (intent_to 1)) = (Ok (), s') ∧
    sent s'
    = sent (snapshot [switch1] [] (intent_to 1))
      ++ [packet_out (frame 0x0800 "00:00:00:00:00:0b") OFPP_FLOOD].
Proof.
  apply (unknown_destination_floods (frame 0x0800 "00:00:00:00:00:0b")
           (snapshot [switch1] [] (intent_to 1))).
  - split; [vm_compute; discriminate|]. split; [vm_compute; discriminate|].
    exists 0. split; reflexivity.
  - vm_compute. reflexivity.
Defined.

(** X14: once a frame from an address has been handled on a switch, a
    later frame on the same switch to that address, from another address,
    is answered by an install and a packet-out that forward to the port the
    first frame came in by (provided that port is not the flood port). *)
Theorem learned_then_forwarded ev1 ev2 s :
  handled ev1 → handled ev2 →
  id (msg_datapath ev2) = id (msg_datapath ev1) →
  eth_dst (msg_eth ev2) = eth_src (msg_eth ev1) →
  eth_src (msg_eth ev2) ≠ eth_src (msg_eth ev1) →
  msg_in_port ev1 ≠ OFPP_FLOOD →
  ∃ s1 s2,
    _packet_in_handler ev1 s = (Ok (), s1) ∧
    _packet_in_handler ev2 s1 = (Ok (), s2) ∧
    sent s2 = sent s1 ++ [learned_flow ev2 (msg_in_port ev1);
                          packet_out ev2 (msg_in_port ev1)].
Proof.
  intros H1 H2 Hid Hdst Hsrc Hport.
  pose proof (_packet_in_handler_run ev1 s H1) as Hrun1.
  match type of Hrun1 with
  | _ = (_, ?x) => remember x as s1 eqn:Hs1
  end.
  assert (Hmac : mac_to_port s1
                 = <[id (msg_datapath ev1) := table_after ev1 s]>
                     (mac_to_port s)).
  { rewrite Hs1. reflexivity. }
  assert (Hres : resolved_port ev2 s1 = msg_in_port ev1).
  { unfold resolved_port, table_after. rewrite Hmac, Hid.
    rewrite lookup_insert_eq. simpl. rewrite Hdst.
    rewrite lookup_insert_ne by exact Hsrc.
    unfold table_after. rewrite lookup_insert_eq. reflexivity. }
  exists s1. eexists. split; [exact Hrun1|].
  split; [apply _packet_in_handler_run; exact H2|].
  simpl. rewrite Hres. rewrite decide_True by exact Hport. reflexivity.
Qed.

Lemma learned_then_forwarded_witness :
  ∃ s1 s2,
    _packet_in_handler (frame 0x0800 "00:00:00:00:00:0b")
      (snapshot [switch1] [] (intent_to 1)) = (Ok (), s1) ∧
    _packet_in_handler reply_frame s1 = (Ok (), s2) ∧
    sent s2
    = sent s1
      ++ [learned_flow reply_frame
            (msg_in_port (frame 0x0800 "00:00:00:00:00:0b"));
          packet_out reply_frame
            (msg_in_port (frame 0x0800 "00:00:00:00:00:0b"))].
Proof.
  apply (learned_then_forwarded (frame 0x0800 "00:00:00:00:00:0b")
           reply_frame (snapshot [switch1] [] (intent_to 1))).
  - split; [vm_compute; discriminate|]. split; [vm_compute; discriminate|].
    exists 0. split; reflexivity.
  - split; [vm_compute; discriminate|]. split; [vm_compute; discriminate|].
    exists 0. split; reflexivity.
  - reflexivity.
  - reflexivity.
  - vm_compute. discriminate.
  - vm_compute. discriminate.
Defined.

(** X15: whatever the frame and the outcome, the handler leaves the
    topology, the intent objects and the registry as they were, and in the
    MAC tables it changes at most the entry of the source address of the
    frame in the table of the switch of the frame: no other entry, of this
    switch or of another, is changed or removed. *)
Theorem handler_keeps_other_entries ev s :
  topo_switches (_packet_in_handler ev s).2 = topo_switches s ∧
  topo_links (_packet_in_handler ev s).2 = topo_links s ∧
  heap (_packet_in_handler ev s).2 = heap s ∧
  rules (_packet_in_handler ev s).2 = rules s ∧
  ∀ switch mac,
    (switch, mac) ≠ (id (msg_datapath ev), eth_src (msg_eth ev)) →
    mac_entry (_packet_in_handler ev s).2 switch mac = mac_entry s switch mac.
Proof.
  assert (Hsame : ∀ out, _packet_in_handler ev s = (out, s) →
            topo_switches (_packet_in_handler ev s).2 = topo_switches s ∧
            topo_links (_packet_in_handler ev s).2 = topo_links s ∧
            heap (_packet_in_handler ev s).2 = heap s ∧
            rules (_packet_in_handler ev s).2 = rules s ∧
            ∀ switch mac,
              (switch, mac) ≠ (id (msg_datapath ev), eth_src (msg_eth ev)) →
              mac_entry (_packet_in_handler ev s).2 switch mac
              = mac_entry s switch mac).
  { intros out Hrun. rewrite Hrun. simpl. auto. }
  destruct (decide (ethertype (msg_eth ev) = ETH_TYPE_LLDP)) as [Hl|Hl].
  { apply (Hsame (Ok ())). unfold _packet_in_handler.
    rewrite decide_True by exact Hl. reflexivity. }
  destruct (decide (ethertype (msg_eth ev) = ETH_TYPE_IPV6)) as [Hi|Hi].
  { apply (Hsame (Ok ())). unfold _packet_in_handler.
    rewrite decide_False by exact Hl. rewrite decide_True by exact Hi.
    reflexivity. }
  destruct (int16 (split0 (eth_dst (msg_eth ev)))) as [octet|e|] eqn:Hoct.
  - destruct (decide (Z.land octet 1 = 0)) as [Hbit|Hbit].
    + rewrite _packet_in_handler_run by (repeat split; eauto). simpl.
      repeat split; auto. intros switch mac Hne. unfold mac_entry. simpl.
      destruct (decide (switch = id (msg_datapath ev))) as [->|Hsw].
      * rewrite lookup_insert_eq. simpl. unfold table_after.
        rewrite lookup_insert_ne by congruence.
        destruct (mac_to_port s !! id (msg_datapath ev)); simpl; auto.
      * rewrite lookup_insert_ne by congruence. reflexivity.
    + apply (Hsame (Ok ())). unfold _packet_in_handler.
      rewrite decide_False by exact Hl. rewrite decide_False by exact Hi.
      erewrite bind_ok by (unfold lift; rewrite Hoct; reflexivity).
      rewrite decide_True by exact Hbit. reflexivity.
  - apply (Hsame (Raise e)). unfold _packet_in_handler.
    rewrite decide_False by exact Hl. rewrite decide_False by exact Hi.
    erewrite bind_raise by (unfold lift; rewrite Hoct; reflexivity).
    reflexivity.
  - apply (Hsame OutOfFuel). unfold _packet_in_handler.
    rewrite decide_False by exact Hl. rewrite decide_False by exact Hi.
    unfold mbind, M_bind, lift. rewrite Hoct. reflexivity.
Qed.

(** X16: a frame to the broadcast address ff:ff:ff:ff:ff:ff is dropped on
    entry whatever its ethertype: the handler returns with the state as it
    was, so the frame is neither learned from nor flooded. *)
Theorem broadcast_frame_is_dropped ev s :
  eth_dst (msg_eth ev) = "ff:ff:ff:ff:ff:ff"%string →
  _packet_in_handler ev s = (Ok (), s).
Proof.
  intros Hdst. unfold _packet_in_handler.
  destruct (decide (ethertype (msg_eth ev) = ETH_TYPE_LLDP)); [reflexivity|].
  destruct (decide (ethertype (msg_eth ev) = ETH_TYPE_IPV6)); [reflexivity|].
  rewrite Hdst.
  erewrite bind_ok by (unfold lift; vm_compute int16; reflexivity).
  rewrite decide_True by (vm_compute; discriminate). reflexivity.
Qed.

Lemma broadcast_frame_is_dropped_witness :
  _packet_in_handler (frame 0x0806 "ff:ff:ff:ff:ff:ff") table_known
  = (Ok (), table_known).
Proof.
  apply (broadcast_frame_is_dropped (frame 0x0806 "ff:ff:ff:ff:ff:ff")
           table_known).
  reflexivity.
Defined.
